(** * The pal-mcp keystore (packages/core/src/keystore.ts)

    A shallow embedding of the secret keystore: the persisted document, the
    master-key acquisition with its vault / file fallback, the AES-256-GCM
    entry format, and the six exported operations.

    Conventions of the embedding.
    - A JavaScript string is represented by the byte sequence of its UTF-8
      encoding (a Rocq [string]), an unpaired surrogate in it by the three
      bytes that generalised UTF-8 gives it; a Rocq [string] that is not of
      this form stands for no JavaScript string.  The conversions of
      [cipher.update(s, 'utf-8', ...)] and [decipher.update(..., 'utf-8')]
      are those of [Utf8].
    - A [Buffer] is a [list byte].
    - keystore.json, when [JSON.parse] accepts it, holds a document of the
      type [KeystoreData]; other JSON values are not represented.
    - Every operation is a function from the state of the world (module
      variable, files, vault) to an outcome, the new world and the list of
      effects it performed, in program order.  A rejected promise and a
      synchronous throw are both [Throw].
    - Calls into [node:fs] succeed, but for [writeFileSync] on
      keystore.json in the operations that are given a [Disk]; the
      permission bits passed to them (0o700, 0o600) are not tracked. *)

From Stdlib Require Import Strings.String Strings.Ascii Strings.Byte List Bool NArith Lia.
From stdpp Require Import base option strings list gmap fin_maps.

Local Open Scope string_scope.

(** ** Buffers and the 'hex' encoding *)

#[global] Instance byte_eq_decision : EqDecision byte := Byte.byte_eq_dec.

Module Hex.

(** One digit of [buf.toString('hex')]: lower case. *)
Definition digit (n : N) : ascii :=
  if (n <? 10)%N then ascii_of_N (48 + n) else ascii_of_N (87 + n).

(** Value of one character for [Buffer.from(s, 'hex')]: both cases of the
    letters are accepted, anything else is not a digit. *)
Definition value (c : ascii) : option N :=
  let n := N_of_ascii c in
  if ((48 <=? n) && (n <=? 57))%N then Some (n - 48)%N
  else if ((97 <=? n) && (n <=? 102))%N then Some (n - 87)%N
  else if ((65 <=? n) && (n <=? 70))%N then Some (n - 55)%N
  else None.

Definition byte_of_N (n : N) : byte :=
  match Byte.of_N n with Some b => b | None => x00 end.

(** [buf.toString('hex')] *)
Fixpoint encode (bs : list byte) : string :=
  match bs with
  | [] => EmptyString
  | b :: rest =>
      String (digit (Byte.to_N b / 16))
        (String (digit (Byte.to_N b mod 16)) (encode rest))
  end.

(** [Buffer.from(s, 'hex')]: pairs of digits are decoded from the left;
    decoding stops at the first pair that is not two hex digits, and a
    trailing single character is dropped. *)
Fixpoint decode (s : string) : list byte :=
  match s with
  | String a (String b rest) =>
      match value a, value b with
      | Some hi, Some lo => byte_of_N (16 * hi + lo) :: decode rest
      | _, _ => []
      end
  | _ => []
  end.

End Hex.

(** ** The 'utf-8' encoding

    [cipher.update(s, 'utf-8', ...)] writes a string as UTF-8, with U+FFFD
    in the place of every unpaired surrogate; [decipher.update(..., 'utf-8')]
    and [decipher.final('utf-8')] read bytes as UTF-8 the way the decoder of
    the Encoding Standard does, with U+FFFD in the place of every ill-formed
    sequence. *)

Module Utf8.

Definition between (lo hi : N) (b : byte) : bool :=
  ((lo <=? Byte.to_N b) && (Byte.to_N b <=? hi))%N.

(** U+FFFD *)
Definition replacement : list byte := [xef; xbf; xbd].

(** A sequence that the decoder has begun: its bytes so far, the number of
    bytes to come, and the bounds for the next one. *)
Record Pending := {
  seen : list byte;
  needed : nat;
  lower : N;
  upper : N;
}.

(** The sequence that a lead byte begins. *)
Definition lead (b : byte) : option Pending :=
  if between 0xC2 0xDF b
  then Some {| seen := [b]; needed := 1; lower := 0x80; upper := 0xBF |}
  else if between 0xE0 0xEF b
  then Some {| seen := [b]; needed := 2;
               lower := if between 0xE0 0xE0 b then 0xA0 else 0x80;
               upper := if between 0xED 0xED b then 0x9F else 0xBF |}
  else if between 0xF0 0xF4 b
  then Some {| seen := [b]; needed := 3;
               lower := if between 0xF0 0xF0 b then 0x90 else 0x80;
               upper := if between 0xF4 0xF4 b then 0x8F else 0xBF |}
  else None.

(** A byte when no sequence is begun: what is put out, and the sequence
    begun. *)
Definition start (b : byte) : list byte * option Pending :=
  if between 0x00 0x7F b then ([b], None)
  else match lead b with
       | Some p => ([], Some p)
       | None => (replacement, None)
       end.

(** One byte through the decoder.  A scalar value that is complete is put
    out as the bytes that were read for it: they are its UTF-8 encoding.  A
    byte out of bounds ends the sequence begun with U+FFFD and is read
    again, with no sequence begun. *)
Definition step (st : option Pending) (b : byte)
    : list byte * option Pending :=
  match st with
  | None => start b
  | Some p =>
      if between (lower p) (upper p) b
      then match needed p with
           | S (S n) =>
               ([], Some {| seen := (seen p ++ [b])%list; needed := S n;
                            lower := 0x80; upper := 0xBF |})
           | _ => ((seen p ++ [b])%list, None)
           end
      else let '(out, st') := start b in ((replacement ++ out)%list, st')
  end.

(** At the end of the bytes a sequence begun gives U+FFFD. *)
Fixpoint decode_from (st : option Pending) (bs : list byte) : list byte :=
  match bs with
  | [] => match st with Some _ => replacement | None => [] end
  | b :: rest => let '(out, st') := step st b in (out ++ decode_from st' rest)%list
  end.

(** [buf.toString('utf-8')], as the bytes of the string that it returns. *)
Definition decode (bs : list byte) : list byte := decode_from None bs.

(** Well-formed UTF-8 (The Unicode Standard, table 3-7). *)
Fixpoint valid (bs : list byte) : bool :=
  match bs with
  | [] => true
  | b1 :: rest1 =>
      if between 0x00 0x7F b1 then valid rest1
      else if between 0xC2 0xDF b1
      then match rest1 with
           | b2 :: rest2 => between 0x80 0xBF b2 && valid rest2
           | _ => false
           end
      else if between 0xE0 0xEF b1
      then match rest1 with
           | b2 :: b3 :: rest3 =>
               between (if between 0xE0 0xE0 b1 then 0xA0 else 0x80)
                       (if between 0xED 0xED b1 then 0x9F else 0xBF) b2
               && between 0x80 0xBF b3 && valid rest3
           | _ => false
           end
      else if between 0xF0 0xF4 b1
      then match rest1 with
           | b2 :: b3 :: b4 :: rest4 =>
               between (if between 0xF0 0xF0 b1 then 0x90 else 0x80)
                       (if between 0xF4 0xF4 b1 then 0x8F else 0xBF) b2
               && between 0x80 0xBF b3 && between 0x80 0xBF b4 && valid rest4
           | _ => false
           end
      else false
  end.

(** The three bytes of a surrogate, U+D800 to U+DFFF, at the head of
    [b1 :: rest]. *)
Definition surrogate (b1 : byte) (rest : list byte) : bool :=
  match rest with
  | b2 :: b3 :: _ =>
      between 0xED 0xED b1 && between 0xA0 0xBF b2 && between 0x80 0xBF b3
  | _ => false
  end.

(** [Buffer.from(s, 'utf-8')] on the bytes that stand for [s]: every
    unpaired surrogate becomes U+FFFD. *)
Fixpoint encode (bs : list byte) : list byte :=
  match bs with
  | [] => []
  | b1 :: rest =>
      match rest with
      | _ :: _ :: rest' =>
          if surrogate b1 rest then (replacement ++ encode rest')%list
          else b1 :: encode rest
      | _ => b1 :: encode rest
      end
  end.

(** The number of UTF-16 code units: one for every scalar value, and one
    more for those of four bytes. *)
Definition length16 (bs : list byte) : nat :=
  length (List.filter (λ b, negb (between 0x80 0xBF b)) bs)
  + length (List.filter (between 0xF0 0xF4) bs).

End Utf8.

(** [Buffer.from(s, 'utf-8')] *)
Definition utf8 (s : string) : list byte :=
  Utf8.encode (list_byte_of_string s).

(** [buf.toString('utf-8')] *)
Definition from_utf8 (bs : list byte) : string :=
  string_of_list_byte (Utf8.decode bs).

(** [s.isWellFormed()]: no unpaired surrogate. *)
Definition isWellFormed (s : string) : bool :=
  Utf8.valid (list_byte_of_string s).

(** [s.length] *)
Definition js_length (s : string) : nat :=
  Utf8.length16 (list_byte_of_string s).

(** ** Outcomes, effects and the state of the world *)

(** What a call can throw (or reject with). *)
Inductive Error :=
| SyntaxError     (* JSON.parse on text that is not JSON *)
| VaultError      (* keytar's getPassword / setPassword rejected *)
| CryptoError     (* node:crypto: bad key, IV or tag length, or tag mismatch *)
| TypeError       (* Buffer.from(undefined, 'hex'), hex text of odd length *)
| IOError.        (* fs.writeFileSync: the file cannot be written *)

Inductive Result (A : Type) :=
| Ok (a : A)
| Throw (e : Error).
Arguments Ok {A} a.
Arguments Throw {A} e.

(** [KeystoreEntry] and [KeystoreData] of types.ts. *)
Record KeystoreEntry := {
  iv : string;
  authTag : string;
  ciphertext : string;
}.

Record KeystoreData := {
  version : Z;
  masterKeyInKeychain : bool;
  secrets : gmap string KeystoreEntry;     (* own properties of the object *)
}.

(** The text of keystore.json, by what [JSON.parse] makes of it: a document
    (what [JSON.stringify] wrote, or any other text of that shape), or text
    on which [JSON.parse] throws. *)
Inductive FileContent :=
| Json (d : KeystoreData)
| NotJson (raw : string).

Record World := {
  keytar : bool;                           (* the module variable is not null *)
  dir_exists : bool;                       (* KEYSTORE_DIR exists *)
  keystore_file : option FileContent;      (* KEYSTORE_FILE, when it exists *)
  key_file : option string;                (* KEYSTORE_DIR/.master, when it exists *)
  vault : option string;                   (* password of pal-mcp / master-key *)
}.

(** What the surroundings do during one call: whether [import('keytar')]
    resolves, whether the two vault calls reject, and the bytes that
    [crypto.randomBytes] hands out. *)
Record Platform := {
  keytar_importable : bool;
  getPassword_rejects : bool;
  setPassword_rejects : bool;
  tape : nat → byte;
}.

(** Whether keystore.json can be written: [fs.writeFileSync] throws on a
    file that is read-only, or when the disk is full. *)
Inductive Disk := Writable | KeystoreReadOnly.

Inductive Event :=
| EImportKeytar (ok : bool)
| EMkdir
| EReadDoc
| EWriteDoc (d : KeystoreData)
| EGetPassword
| ESetPassword (ok : bool)
| ERandomBytes (n : nat)
| EReadKeyFile
| EWriteKeyFile (hex : string).

Record Run (A : Type) := MkRun {
  outcome : Result A;
  after : World;
  effects : list Event;
}.
Arguments MkRun {A} outcome after effects.
Arguments outcome {A} r.
Arguments after {A} r.
Arguments effects {A} r.

Definition M (A : Type) : Type := World → Run A.

Definition ret {A} (a : A) : M A := λ w, MkRun (Ok a) w [].

Definition throw {A} (e : Error) : M A := λ w, MkRun (Throw e) w [].

Definition bind {A B} (m : M A) (k : A → M B) : M B := λ w,
  match m w with
  | MkRun (Ok a) w1 es =>
      match k a w1 with
      | MkRun o w2 es' => MkRun o w2 (es ++ es')
      end
  | MkRun (Throw e) w1 es => MkRun (Throw e) w1 es
  end.

(** [try { m } catch { h }] *)
Definition try_catch {A} (m : M A) (h : M A) : M A := λ w,
  match m w with
  | MkRun (Ok a) w1 es => MkRun (Ok a) w1 es
  | MkRun (Throw _) w1 es =>
      match h w1 with
      | MkRun o w2 es' => MkRun o w2 (es ++ es')
      end
  end.

#[global] Instance M_ret : MRet M := @ret.
#[global] Instance M_bind : MBind M := λ A B k m, bind m k.

Definition emit (e : Event) : M unit := λ w, MkRun (Ok tt) w [e].
Definition get_world : M World := λ w, MkRun (Ok w) w [].
Definition put_world (w : World) : M unit := λ _, MkRun (Ok tt) w [].

(** ** A plain object used as a dictionary

    [data.secrets] is an ordinary object: its prototype is
    [Object.prototype], both when it comes out of [JSON.parse] and when it is
    the literal of [loadKeystoreData].  Reading a property and the [in]
    operator follow the prototype chain; [JSON.stringify], [Object.keys] and
    [delete] see own properties only. *)

Module Js.

(** The property names of [Object.prototype]. *)
Definition object_prototype : list string :=
  [ "constructor"; "__defineGetter__"; "__defineSetter__"; "hasOwnProperty";
    "__lookupGetter__"; "__lookupSetter__"; "isPrototypeOf";
    "propertyIsEnumerable"; "toString"; "valueOf"; "__proto__";
    "toLocaleString" ].

(** What [obj[key]] evaluates to. *)
Inductive Value :=
| Own (e : KeystoreEntry)     (* an own property *)
| Inherited                   (* a member of Object.prototype: a function,
                                 or for __proto__ the prototype itself *)
| Undefined.

(** [obj[key]] *)
Definition get (obj : gmap string KeystoreEntry) (key : string) : Value :=
  match obj !! key with
  | Some e => Own e
  | None => if bool_decide (key ∈ object_prototype) then Inherited else Undefined
  end.

(** Truthiness: objects and functions are truthy, [undefined] is not. *)
Definition truthy (v : Value) : bool :=
  match v with Undefined => false | _ => true end.

(** [key in obj] *)
Definition has (obj : gmap string KeystoreEntry) (key : string) : bool :=
  match obj !! key with
  | Some _ => true
  | None => bool_decide (key ∈ object_prototype)
  end.

(** [obj[key] = e], seen through the own properties that a later
    [JSON.stringify] writes.  Every member of [Object.prototype] is a
    writable data property and is shadowed by the assignment, except the
    accessor [__proto__]: without an own property of that name the
    assignment runs its setter, which replaces the prototype of [obj] and
    adds no own property. *)
Definition set (obj : gmap string KeystoreEntry) (key : string)
    (e : KeystoreEntry) : gmap string KeystoreEntry :=
  match obj !! key with
  | Some _ => <[key := e]> obj
  | None => if bool_decide (key = "__proto__") then obj else <[key := e]> obj
  end.

(** [delete obj[key]] *)
Definition remove (obj : gmap string KeystoreEntry) (key : string)
    : gmap string KeystoreEntry :=
  delete key obj.

(** [Object.keys(obj)].  The own keys, each once; the order in which
    JavaScript enumerates them (integer-like keys first, then insertion
    order) is not represented by the map. *)
Definition keys (obj : gmap string KeystoreEntry) : list string :=
  (map_to_list obj).*1.

End Js.

(** ** AES-256-GCM as node:crypto exposes it

    The cipher itself is not part of the repository.  It is represented by
    its structure (NIST SP 800-38D): the payload is XORed with a key stream
    that depends on key and IV, and the 16-byte tag is a function of key, IV
    and ciphertext which decryption recomputes and compares.  The block
    cipher and GHASH stay parameters: [gcm_keystream key iv i] is byte [i] of
    the key stream, [gcm_tag key iv c i] is byte [i] of the tag of [c]. *)

Module Gcm.

Definition bits8 : Type :=
  (bool * (bool * (bool * (bool * (bool * (bool * (bool * bool)))))))%type.

Definition xor_bits (x y : bits8) : bits8 :=
  let '(a0, (a1, (a2, (a3, (a4, (a5, (a6, a7))))))) := x in
  let '(b0, (b1, (b2, (b3, (b4, (b5, (b6, b7))))))) := y in
  (xorb a0 b0, (xorb a1 b1, (xorb a2 b2, (xorb a3 b3,
    (xorb a4 b4, (xorb a5 b5, (xorb a6 b6, xorb a7 b7))))))).

Definition xor_byte (a b : byte) : byte :=
  Byte.of_bits (xor_bits (Byte.to_bits a) (Byte.to_bits b)).

(** Counter mode from position [i] on. *)
Fixpoint ctr_from (ks : nat → byte) (i : nat) (data : list byte) : list byte :=
  match data with
  | [] => []
  | b :: rest => xor_byte b (ks i) :: ctr_from ks (S i) rest
  end.

(** [createCipheriv('aes-256-gcm', key, iv)] and [createDecipheriv] throw
    unless the key has 32 bytes and the IV has 1 to 128 bytes. *)
Definition valid_args (key ivb : list byte) : bool :=
  (length key =? 32)%nat && negb (length ivb =? 0)%nat
  && (length ivb <=? 128)%nat.

(** [decipher.setAuthTag] accepts the tag lengths of NIST SP 800-38D when no
    [authTagLength] option was given: 4, 8 and 12 to 16 bytes. *)
Definition valid_tag_length (n : nat) : bool :=
  (n =? 4)%nat || (n =? 8)%nat || ((12 <=? n)%nat && (n <=? 16)%nat).

Section Cipher.
Variable gcm_keystream : list byte → list byte → nat → byte.
Variable gcm_tag : list byte → list byte → list byte → nat → byte.

Definition gctr (key ivb data : list byte) : list byte :=
  ctr_from (gcm_keystream key ivb) 0 data.

Definition tag (key ivb c : list byte) : list byte :=
  map (gcm_tag key ivb c) (seq 0 16).

(** [cipher.update(..) + cipher.final()] and [cipher.getAuthTag()] *)
Definition seal (key ivb plain : list byte) : list byte * list byte :=
  let c := gctr key ivb plain in (c, tag key ivb c).

(** [decipher.update(..) + decipher.final()] after [setAuthTag(t)]: the
    payload when the first [length t] bytes of the recomputed tag are [t],
    nothing ([final] throws) otherwise. *)
Definition open (key ivb t c : list byte) : option (list byte) :=
  if bool_decide (t = take (length t) (tag key ivb c))
  then Some (gctr key ivb c) else None.

End Cipher.
End Gcm.

(** ** The keystore *)

Section Keystore.

(** [os.homedir()] *)
Variable homedir : string.
(** The block cipher and the hash of AES-256-GCM, see [Gcm]. *)
Variable gcm_keystream : list byte → list byte → nat → byte.
Variable gcm_tag : list byte → list byte → list byte → nat → byte.

(** [path.join] of POSIX on two segments in normal form, the first without
    a slash at its end: nothing to normalise, so the segments are put
    together with a slash. *)
Definition path_join (a b : string) : string := a ++ "/" ++ b.

Definition KEYSTORE_DIR : string := path_join homedir ".pal".
Definition KEYSTORE_FILE : string := path_join KEYSTORE_DIR "keystore.json".
Definition SERVICE_NAME : string := "pal-mcp".
Definition ACCOUNT_NAME : string := "master-key".

Definition loadKeytar (pf : Platform) : M bool := λ w,
  if keytar w then MkRun (Ok true) w []
  else if keytar_importable pf
       then MkRun (Ok true)
              {| keytar := true; dir_exists := dir_exists w;
                 keystore_file := keystore_file w; key_file := key_file w;
                 vault := vault w |}
              [EImportKeytar true]
       else MkRun (Ok false) w [EImportKeytar false].

Definition ensureKeystoreDir : M unit := λ w,
  if dir_exists w then MkRun (Ok tt) w []
  else MkRun (Ok tt)
         {| keytar := keytar w; dir_exists := true;
            keystore_file := keystore_file w; key_file := key_file w;
            vault := vault w |}
         [EMkdir].

Definition empty_document : KeystoreData :=
  {| version := 1; masterKeyInKeychain := false; secrets := ∅ |}.

Definition loadKeystoreData : M KeystoreData :=
  ensureKeystoreDir;;
  w ← get_world;
  match keystore_file w with
  | None => mret empty_document
  | Some (Json d) => emit EReadDoc;; mret d
  | Some (NotJson _) => emit EReadDoc;; throw SyntaxError
  end.

(** [saveKeystoreData] on a disk on which keystore.json can or cannot be
    written: in the second case [fs.writeFileSync] throws. *)
Definition saveKeystoreData_on (disk : Disk) (data : KeystoreData) : M unit :=
  ensureKeystoreDir;;
  match disk with
  | KeystoreReadOnly => throw IOError
  | Writable =>
      w ← get_world;
      put_world {| keytar := keytar w; dir_exists := dir_exists w;
                   keystore_file := Some (Json data); key_file := key_file w;
                   vault := vault w |};;
      emit (EWriteDoc data)
  end.

Definition saveKeystoreData : KeystoreData → M unit :=
  saveKeystoreData_on Writable.

(** [crypto.randomBytes(n)], reading the tape from position [from]. *)
Definition randomBytes (pf : Platform) (from n : nat) : M (list byte) :=
  emit (ERandomBytes n);; mret (map (tape pf) (seq from n)).

(** [kt.getPassword(SERVICE_NAME, ACCOUNT_NAME)] *)
Definition getPassword (pf : Platform) : M (option string) :=
  emit EGetPassword;;
  if getPassword_rejects pf then throw VaultError
  else w ← get_world; mret (vault w).

(** [kt.setPassword(SERVICE_NAME, ACCOUNT_NAME, password)] *)
Definition setPassword (pf : Platform) (password : string) : M unit :=
  if setPassword_rejects pf then emit (ESetPassword false);; throw VaultError
  else
    w ← get_world;
    put_world {| keytar := keytar w; dir_exists := dir_exists w;
                 keystore_file := keystore_file w; key_file := key_file w;
                 vault := Some password |};;
    emit (ESetPassword true).

Definition readKeyFile : M (option string) :=
  w ← get_world; mret (key_file w).

Definition writeKeyFile (hex : string) : M unit :=
  w ← get_world;
  put_world {| keytar := keytar w; dir_exists := dir_exists w;
               keystore_file := keystore_file w; key_file := Some hex;
               vault := vault w |};;
  emit (EWriteKeyFile hex).

Definition with_flag (b : bool) (data : KeystoreData) : KeystoreData :=
  {| version := version data; masterKeyInKeychain := b;
     secrets := secrets data |}.

Definition with_secrets (s : gmap string KeystoreEntry) (data : KeystoreData)
    : KeystoreData :=
  {| version := version data; masterKeyInKeychain := masterKeyInKeychain data;
     secrets := s |}.

(** [getMasterKey] on a disk on which keystore.json can or cannot be
    written. *)
Definition getMasterKey_on (disk : Disk) (pf : Platform) : M (list byte) :=
  kt ← loadKeytar pf;
  data ← loadKeystoreData;
  stored ← (if kt && masterKeyInKeychain data
            then getPassword pf else ret None);
  match stored with
  | Some (String c s) => mret (Hex.decode (String c s))
  | _ =>
      (* Generate new master key *)
      newKey ← randomBytes pf 0 32;
      saved ← (if (kt : bool)
               then try_catch
                      (setPassword pf (Hex.encode newKey);;
                       saveKeystoreData_on disk (with_flag true data);;
                       ret true)
                      (ret false)
               else ret false);
      if (saved : bool) then mret newKey
      else
        (* Fallback: store key in file *)
        keyFile ← readKeyFile;
        match keyFile with
        | Some hex => emit EReadKeyFile;; mret (Hex.decode hex)
        | None =>
            writeKeyFile (Hex.encode newKey);;
            saveKeystoreData_on disk (with_flag false data);;
            mret newKey
        end
  end.

Definition getMasterKey : Platform → M (list byte) :=
  getMasterKey_on Writable.

(** The entry that [encrypt] builds once the IV is drawn. *)
Definition sealed_entry (key ivb : list byte) (plaintext : string)
    : KeystoreEntry :=
  let '(c, t) := Gcm.seal gcm_keystream gcm_tag key ivb (utf8 plaintext) in
  {| iv := Hex.encode ivb; authTag := Hex.encode t;
     ciphertext := Hex.encode c |}.

Definition encrypt (pf : Platform) (plaintext : string) (key : list byte)
    : M KeystoreEntry :=
  ivb ← randomBytes pf 32 12;
  if Gcm.valid_args key ivb then mret (sealed_entry key ivb plaintext)
  else throw CryptoError.

(** [decipher.update(text, 'hex', ...)] throws on a text with an odd
    number of characters; on a text with an even number it decodes as
    [Buffer.from(text, 'hex')] does. *)
Definition decrypt (entry : KeystoreEntry) (key : list byte) : Result string :=
  let ivb := Hex.decode (iv entry) in
  let t := Hex.decode (authTag entry) in
  if negb (Gcm.valid_args key ivb) then Throw CryptoError
  else if negb (Gcm.valid_tag_length (length t)) then Throw CryptoError
  else if Nat.odd (js_length (ciphertext entry)) then Throw TypeError
  else match Gcm.open gcm_keystream gcm_tag key ivb t
               (Hex.decode (ciphertext entry)) with
       | Some plain => Ok (from_utf8 plain)
       | None => Throw CryptoError
       end.

Definition storeSecret (pf : Platform) (key value : string) : M unit :=
  masterKey ← getMasterKey pf;
  data ← loadKeystoreData;
  entry ← encrypt pf value masterKey;
  saveKeystoreData (with_secrets (Js.set (secrets data) key entry) data).

Definition getSecret (pf : Platform) (key : string) : M (option string) :=
  data ← loadKeystoreData;
  match Js.get (secrets data) key with
  | Js.Undefined => mret None
  | Js.Own entry =>
      masterKey ← getMasterKey pf;
      match decrypt entry masterKey with
      | Ok plain => mret (Some plain)
      | Throw _ => mret None
      end
  | Js.Inherited =>
      (* truthy, so the key is fetched; then [entry.iv] is [undefined] and
         [Buffer.from] throws inside the [try] *)
      getMasterKey pf;;
      mret None
  end.

Definition deleteSecret (key : string) : M bool :=
  data ← loadKeystoreData;
  if negb (Js.truthy (Js.get (secrets data) key)) then mret false
  else
    saveKeystoreData (with_secrets (Js.remove (secrets data) key) data);;
    mret true.

Definition listSecretKeys : M (list string) :=
  data ← loadKeystoreData;
  mret (Js.keys (secrets data)).

Definition hasSecret (key : string) : M bool :=
  data ← loadKeystoreData;
  mret (Js.has (secrets data) key).

Definition getKeystoreInfo : M (string * bool) :=
  data ← loadKeystoreData;
  mret (KEYSTORE_FILE, masterKeyInKeychain data).

End Keystore.

(** ** Reading the effects of a run *)

Definition is_doc_write (e : Event) : bool :=
  match e with EWriteDoc _ => true | _ => false end.

(** The world after [mkdirSync(KEYSTORE_DIR)]. *)
Definition with_dir (w : World) : World :=
  {| keytar := keytar w; dir_exists := true;
     keystore_file := keystore_file w; key_file := key_file w;
     vault := vault w |}.

(** A run that failed in [JSON.parse] and left the text in place. *)
Definition parse_failure {A} (raw : string) (r : Run A) : Prop :=
  outcome r = Throw SyntaxError
  ∧ keystore_file (after r) = Some (NotJson raw)
  ∧ existsb is_doc_write (effects r) = false.

(** Where a master key can be written. *)
Inductive KeyLocation := InVault | InFile.

Definition key_write (e : Event) : option KeyLocation :=
  match e with
  | ESetPassword true => Some InVault
  | EWriteKeyFile _ => Some InFile
  | _ => None
  end.

(** The last successful write of a master key among the effects. *)
Fixpoint last_key_write (es : list Event) : option KeyLocation :=
  match es with
  | [] => None
  | e :: rest =>
      match last_key_write rest with
      | Some l => Some l
      | None => key_write e
      end
  end.

(** The flag as keystore.json has it. *)
Definition persisted_flag (w : World) : option bool :=
  match keystore_file w with
  | Some (Json d) => Some (masterKeyInKeychain d)
  | _ => None
  end.

(** A world with nothing in it: no directory, no files, an empty vault. *)
Definition fresh_world : World :=
  {| keytar := false; dir_exists := false; keystore_file := None;
     key_file := None; vault := None |}.

(** The document that [loadKeystoreData] returns when it returns one. *)
Definition document (w : World) : KeystoreData :=
  match keystore_file w with
  | Some (Json d) => d
  | _ => empty_document
  end.

(** The world after [writeFileSync(KEYSTORE_FILE, JSON.stringify(d))]. *)
Definition with_document (d : KeystoreData) (w : World) : World :=
  {| keytar := keytar w; dir_exists := dir_exists w;
     keystore_file := Some (Json d); key_file := key_file w;
     vault := vault w |}.

(** Two calls see the same vault: the import and the write behave alike,
    and the read of the second call does not reject. *)
Definition same_vault (pf pf' : Platform) : Prop :=
  keytar_importable pf' = keytar_importable pf
  ∧ setPassword_rejects pf' = setPassword_rejects pf
  ∧ getPassword_rejects pf' = false.

(** [JSON.parse] accepts keystore.json, or there is no such file. *)
Definition parses (w : World) : bool :=
  match keystore_file w with
  | Some (NotJson _) => false
  | _ => true
  end.






(** The world in which the entry of [key] in keystore.json was replaced. *)
Definition replace_entry (key : string) (e' : KeystoreEntry) (w : World)
    : World :=
  with_document
    (with_secrets (<[key := e']> (secrets (document w))) (document w)) w.

(** ** Concrete surroundings, for the examples *)

Module Demo.

(** A stand-in for the block cipher and for GHASH. *)
Definition keystream (key ivb : list byte) (i : nat) : byte :=
  Gcm.xor_byte (nth (i mod 32) key x00) (nth (i mod 12) ivb x00).

Definition tag (key ivb c : list byte) (i : nat) : byte :=
  Gcm.xor_byte (nth i key x00)
    (fold_right Gcm.xor_byte (nth (i mod 12) ivb x00) c).

Definition dice (i : nat) : byte := Hex.byte_of_N (N.of_nat (7 * i + 3) mod 256).

(** keytar is not installed. *)
Definition no_keytar : Platform :=
  {| keytar_importable := false; getPassword_rejects := false;
     setPassword_rejects := false; tape := dice |}.

(** keytar is installed and the keychain works. *)
Definition keychain : Platform :=
  {| keytar_importable := true; getPassword_rejects := false;
     setPassword_rejects := false; tape := dice |}.

(** keytar is installed and the keychain refuses to be read or written. *)
Definition locked_keychain : Platform :=
  {| keytar_importable := true; getPassword_rejects := true;
     setPassword_rejects := true; tape := dice |}.

(** The keychain of another day: [crypto.randomBytes] gives other
    bytes. *)
Definition keychain_later : Platform :=
  {| keytar_importable := true; getPassword_rejects := false;
     setPassword_rejects := false; tape := λ i, dice (i + 1) |}.

Definition home : string := "/home/dev".

Definition store := storeSecret keystream tag.
Definition get := getSecret keystream tag.

(** The world after a first [storeSecret] with a working keychain: the
    master key is in the vault and keystore.json says so. *)
Definition vault_backed : World :=
  after (store keychain "proj:openai" "sk-test-123" fresh_world).

(** keystore.json holds text that is not JSON. *)
Definition corrupted : World :=
  {| keytar := false; dir_exists := true;
     keystore_file := Some (NotJson "{ version: 1,");
     key_file := None; vault := None |}.

(** The world after a first [storeSecret] without keytar. *)
Definition one_secret : World :=
  after (store no_keytar "proj:openai" "sk-test-123" fresh_world).

End Demo.

(** ** A new process, and what counts as touching the master key *)

(** The same machine seen by a new process: the module variable [keytar]
    is [null] again, files and vault are as they were. *)
Definition restart (w : World) : World :=
  {| keytar := false; dir_exists := dir_exists w;
     keystore_file := keystore_file w; key_file := key_file w;
     vault := vault w |}.

(** Effects of [getMasterKey] beyond loading the document: the import of
    keytar, the vault calls, the random draw and the accesses to the key
    file. *)
Definition is_key_effect (e : Event) : bool :=
  match e with
  | EImportKeytar _ | EGetPassword | ESetPassword _ | ERandomBytes _
  | EReadKeyFile | EWriteKeyFile _ => true
  | EMkdir | EReadDoc | EWriteDoc _ => false
  end.

(** A vault call. *)
Definition is_vault_call (e : Event) : bool :=
  match e with
  | EGetPassword | ESetPassword _ => true
  | _ => false
  end.

(** ** The callers

    The commands of the CLI and the tools of the MCP server name the secret
    of a service by the template literal
    [`${config.projectName}:${service.id}`]. *)

Definition secretKey (projectName serviceId : string) : string :=
  projectName ++ ":" ++ serviceId.

(** A string without a colon. *)
Fixpoint no_colon (s : string) : bool :=
  match s with
  | EmptyString => true
  | String c rest => negb (Ascii.eqb c ":"%char) && no_colon rest
  end.

(** ** The env file (packages/core/src/env.ts)

    The values that [generateCommand] gets from [getSecret] end in the env
    file of the project, through [serializeEnvFile], and are read back by
    [parseEnvFile].  A function that reads a file is given its text, or
    nothing when the file does not exist, and returns the text that it
    writes; the UTF-8 conversion of [node:fs] between the text and the
    bytes of the file is not represented, it leaves a text without
    unpaired surrogates as it is. *)

Module Env.

Definition dquote : ascii := Ascii false true false false false true false false.
Definition apostrophe : ascii := "'"%char.
Definition backslash : ascii := "\"%char.
Definition newline : ascii := Ascii false true false true false false false false.
Definition hash : ascii := "#"%char.
Definition equals : ascii := "="%char.

(** A character given by the bytes of its UTF-8 encoding. *)
Definition utf8 (bytes : list nat) : string :=
  fold_right (λ n s, String (ascii_of_nat n) s) EmptyString bytes.

(** WhiteSpace and LineTerminator of ECMAScript, which [trim] strips and
    [\s] matches: TAB, LF, VT, FF, CR, SP, U+00A0, U+1680, U+2000 to U+200A,
    U+2028, U+2029, U+202F, U+205F, U+3000, U+FEFF. *)
Definition white_space : list string :=
  map utf8
    [ [9]; [10]; [11]; [12]; [13]; [32]; [194; 160]; [225; 154; 128];
      [226; 128; 128]; [226; 128; 129]; [226; 128; 130]; [226; 128; 131];
      [226; 128; 132]; [226; 128; 133]; [226; 128; 134]; [226; 128; 135];
      [226; 128; 136]; [226; 128; 137]; [226; 128; 138];
      [226; 128; 168]; [226; 128; 169]; [226; 128; 175]; [226; 129; 159];
      [227; 128; 128]; [239; 187; 191] ].

(** The rest of [s] after the prefix [p], when [s] starts with [p]. *)
Fixpoint strip_prefix (p s : string) : option string :=
  match p with
  | EmptyString => Some s
  | String a p' =>
      match s with
      | String b s' => if Ascii.eqb a b then strip_prefix p' s' else None
      | EmptyString => None
      end
  end.

(** [s] without the white-space character that it starts with. *)
Definition strip_white_space (s : string) : option string :=
  fold_right
    (λ w found, match strip_prefix w s with Some r => Some r | None => found end)
    None white_space.

Fixpoint trim_start_fuel (n : nat) (s : string) : string :=
  match n with
  | 0 => s
  | S n' =>
      match strip_white_space s with
      | Some r => trim_start_fuel n' r
      | None => s
      end
  end.

(** [s.trimStart()] *)
Definition trimStart (s : string) : string :=
  trim_start_fuel (String.length s) s.

Fixpoint all_white_fuel (n : nat) (s : string) : bool :=
  match s with
  | EmptyString => true
  | String _ _ =>
      match n with
      | 0 => false
      | S n' =>
          match strip_white_space s with
          | Some r => all_white_fuel n' r
          | None => false
          end
      end
  end.

(** [s] is made of white space only. *)
Definition all_white (s : string) : bool :=
  all_white_fuel (String.length s) s.

(** [s.trimEnd()]: the string up to its white-space tail. *)
Fixpoint trimEnd (s : string) : string :=
  match s with
  | EmptyString => EmptyString
  | String a rest =>
      if all_white (String a rest) then EmptyString
      else String a (trimEnd rest)
  end.

(** [s.trim()] *)
Definition trim (s : string) : string := trimEnd (trimStart s).

(** [content.split('\n')] *)
Fixpoint split_lines (s : string) : list string :=
  match s with
  | EmptyString => [EmptyString]
  | String c rest =>
      if Ascii.eqb c newline then EmptyString :: split_lines rest
      else match split_lines rest with
           | l :: ls => String c l :: ls
           | [] => [String c EmptyString]
           end
  end.

(** [(s.slice(0, i), s.slice(i + 1))] for [i = s.indexOf(c)], when [c]
    occurs in [s]. *)
Fixpoint cut_at (c : ascii) (s : string) : option (string * string) :=
  match s with
  | EmptyString => None
  | String a rest =>
      if Ascii.eqb a c then Some (EmptyString, rest)
      else match cut_at c rest with
           | Some (l, r) => Some (String a l, r)
           | None => None
           end
  end.

Definition startsWith (s : string) (c : ascii) : bool :=
  match s with
  | String a _ => Ascii.eqb a c
  | EmptyString => false
  end.

Fixpoint endsWith (s : string) (c : ascii) : bool :=
  match s with
  | EmptyString => false
  | String a EmptyString => Ascii.eqb a c
  | String _ rest => endsWith rest c
  end.

(** [s.slice(0, -1)] *)
Fixpoint drop_last (s : string) : string :=
  match s with
  | EmptyString => EmptyString
  | String _ EmptyString => EmptyString
  | String a rest => String a (drop_last rest)
  end.

(** [s.slice(1, -1)] *)
Definition slice_1_m1 (s : string) : string :=
  match s with
  | EmptyString => EmptyString
  | String _ rest => drop_last rest
  end.

(** Remove surrounding quotes if present. *)
Definition unquote (value : string) : string :=
  if (startsWith value dquote && endsWith value dquote)
     || (startsWith value apostrophe && endsWith value apostrophe)
  then slice_1_m1 value else value.

(** [result[key] = value] on the plain object [result], by its own
    properties: the assignment to [__proto__] runs the setter of
    [Object.prototype], which ignores a string. *)
Definition assign (result : gmap string string) (key value : string)
    : gmap string string :=
  match result !! key with
  | Some _ => <[key := value]> result
  | None =>
      if bool_decide (key = "__proto__") then result
      else <[key := value]> result
  end.

(** The body of the loop of [parseEnvFile]: what one line assigns. *)
Definition parse_line (line : string) : option (string * string) :=
  let trimmed := trim line in
  match trimmed with
  | EmptyString => None
  | String _ _ =>
      if startsWith trimmed hash then None
      else match cut_at equals trimmed with
           | None => None
           | Some (l, r) => Some (trim l, unquote (trim r))
           end
  end.

Definition parseEnvFile (content : string) : gmap string string :=
  fold_left
    (λ result line,
       match parse_line line with
       | Some (key, value) => assign result key value
       | None => result
       end)
    (split_lines content) ∅.

(** [s.includes(w)] *)
Fixpoint includes (s w : string) : bool :=
  match strip_prefix w s with
  | Some _ => true
  | None =>
      match s with
      | EmptyString => false
      | String _ rest => includes rest w
      end
  end.

(** The test of [serializeEnvFile] for values to quote: white space, a
    double quote, an apostrophe, a hash or an equals sign occurs. *)
Definition needsQuotes (value : string) : bool :=
  existsb (includes value)
    (white_space
       ++ [String dquote EmptyString; String apostrophe EmptyString;
           String hash EmptyString; String equals EmptyString]).

(** The [replace] of [serializeEnvFile]: a backslash before every double
    quote. *)
Fixpoint escape_quotes (s : string) : string :=
  match s with
  | EmptyString => EmptyString
  | String c rest =>
      if Ascii.eqb c dquote
      then String backslash (String dquote (escape_quotes rest))
      else String c (escape_quotes rest)
  end.

Definition quotedValue (value : string) : string :=
  if needsQuotes value
  then String dquote (escape_quotes value ++ String dquote EmptyString)
  else value.

(** [lines.join('\n')] *)
Fixpoint join_lines (lines : list string) : string :=
  match lines with
  | [] => EmptyString
  | [l] => l
  | l :: ls => l ++ String newline (join_lines ls)
  end.

(** [serializeEnvFile], on [Object.entries(env)]. *)
Definition serializeEnvFile (entries : list (string * string)) : string :=
  join_lines (map (λ kv, kv.1 ++ "=" ++ quotedValue kv.2) entries)
  ++ String newline EmptyString.

End Env.

(** ** Entries that the env file keeps *)

(** A byte of the encoding of a white-space character. *)
Definition ws_byte (c : ascii) : bool :=
  existsb (λ w, Env.includes w (String c EmptyString)) Env.white_space.

(** Printable ASCII other than the space and the equals sign. *)
Definition name_char (c : ascii) : bool :=
  ((33 <=? N_of_ascii c) && (N_of_ascii c <=? 126))%N
  && negb (Ascii.eqb c Env.equals).

Fixpoint string_forallb (f : ascii → bool) (s : string) : bool :=
  match s with
  | EmptyString => true
  | String c rest => f c && string_forallb f rest
  end.

(** A name of an environment variable that a line of the env file can
    hold: made of [name_char]s, not starting a comment, and not
    [__proto__]. *)
Definition env_name (k : string) : bool :=
  string_forallb name_char k
  && negb (Env.startsWith k Env.hash)
  && negb (String.eqb k "__proto__").

(** A value on one line. *)
Definition one_line (v : string) : bool :=
  string_forallb (λ c, negb (Ascii.eqb c Env.newline)) v.

(** A value without a double quote. *)
Definition no_dquote (v : string) : bool :=
  string_forallb (λ c, negb (Ascii.eqb c Env.dquote)) v.

(** No tail of [s] is white space only: [trimEnd] keeps [s]. *)
Fixpoint no_white_tail (s : string) : bool :=
  match s with
  | EmptyString => true
  | String a rest => negb (Env.all_white (String a rest)) && no_white_tail rest
  end.

(** What [parseEnvFile] reads for a value that [serializeEnvFile] wrote on
    one line: the quotes around it are removed, the backslashes before its
    double quotes stay. *)
Definition read_back (v : string) : string :=
  if Env.needsQuotes v then Env.escape_quotes v else v.

(** The line of [serializeEnvFile] for one entry. *)
Definition env_line (kv : string * string) : string :=
  kv.1 ++ "=" ++ Env.quotedValue kv.2.

(** What [parseEnvFile] does line by line. *)
Definition parse_lines (lines : list string) (start : gmap string string)
    : gmap string string :=
  fold_left
    (λ result line,
       match Env.parse_line line with
       | Some (key, value) => Env.assign result key value
       | None => result
       end)
    lines start.

(** ** Updating the env file *)

(** [EnvResult] of types.ts. *)
Record EnvResult := {
  path : string;
  created : bool;
  updated : list string;
  skipped : list string;
}.

(** [key in existing && existing[key] !== ''], on the plain object that
    [parseEnvFile] returned: an own value that is not empty, or a member of
    [Object.prototype]. *)
Definition env_is_set (existing : gmap string string) (key : string) : bool :=
  match existing !! key with
  | Some v => negb (String.eqb v "")
  | None => bool_decide (key ∈ Js.object_prototype)
  end.

(** One round of the loop of [updateEnvFile]. *)
Definition update_step (state : gmap string string * list string * list string)
    (update : string * string)
    : gmap string string * list string * list string :=
  let '(existing, upd, skp) := state in
  let '(key, value) := update in
  if env_is_set existing key
  then (existing, upd, (skp ++ [key])%list)
  else (Env.assign existing key value, (upd ++ [key])%list, skp).

(** [readEnvFile], on the env file of the project: its content when it
    exists. *)
Definition readEnvFile (file : option string) : gmap string string :=
  match file with
  | None => ∅
  | Some content => Env.parseEnvFile content
  end.

(** [updateEnvFile], on [Object.entries(updates)] and the env file of the
    project: the content that it writes and the result that it returns.
    [entries] is [Object.entries] on the merged object; the order in which
    it lists the own properties is up to JavaScript. *)
Definition updateEnvFile
    (entries : gmap string string → list (string * string))
    (projectPath : string) (updates : list (string * string))
    (envFileName : string) (file : option string) : string * EnvResult :=
  let envPath := path_join projectPath envFileName in
  let '(existing, upd, skp) :=
    fold_left update_step updates (readEnvFile file, [], []) in
  (Env.serializeEnvFile (entries existing),
   {| path := envPath;
      created := match file with None => true | Some _ => false end;
      updated := upd; skipped := skp |}).

(** [Object.entries] lists the own properties, each once. *)
Definition lists_entries
    (entries : gmap string string → list (string * string)) : Prop :=
  ∀ m, entries m ≡ₚ map_to_list m.

(** An entry that the env file gives back as it is. *)
Definition kept_entry (k v : string) : Prop :=
  env_name k = true ∧ one_line v = true ∧ no_dquote v = true.

#[global] Instance kept_entry_dec k v : Decision (kept_entry k v) :=
  ltac:(unfold kept_entry; apply _).

(** ** The ignore file *)

(** [ensureGitignoreHasEnv], on the [.gitignore] of the project: what it
    returns, and the file after the call. *)
Definition ensureGitignoreHasEnv (file : option string) (envFileName : string)
    : bool * option string :=
  let content := match file with Some c => c | None => "" end in
  let lines := map Env.trim (Env.split_lines content) in
  if bool_decide (envFileName ∈ lines)
     || bool_decide ("*.env" ∈ lines)
     || bool_decide (".env*" ∈ lines)
  then (false, file)
  else
    let newContent :=
      Env.trimEnd content
      ++ String Env.newline
           (String Env.newline
              ("# Environment variables"
               ++ String Env.newline
                    (envFileName ++ String Env.newline ""))) in
    (true, Some newContent).

(** An update that [updateEnvFile] writes, for a variable that [existing]
    does not have set, is an entry that the env file gives back as it
    is. *)
Definition written_kept (existing : gmap string string)
    (update : string * string) : Prop :=
  env_is_set existing update.1 = false → kept_entry update.1 update.2.

#[global] Instance written_kept_dec existing update :
  Decision (written_kept existing update) :=
  ltac:(unfold written_kept; apply _).
(** * Properties *)

(** ** The hex encoding *)

Lemma hex_decode_pair (b : byte) :
  Hex.value (Hex.digit (Byte.to_N b / 16)) = Some (Byte.to_N b / 16)%N
  ∧ Hex.value (Hex.digit (Byte.to_N b mod 16)) = Some (Byte.to_N b mod 16)%N
  ∧ Hex.byte_of_N (16 * (Byte.to_N b / 16) + Byte.to_N b mod 16) = b.
Proof. destruct b; vm_compute; auto. Qed.

Lemma hex_decode_encode (bs : list byte) : Hex.decode (Hex.encode bs) = bs.
Proof.
  induction bs as [|b bs IH]; [reflexivity|].
  cbn [Hex.encode Hex.decode].
  destruct (hex_decode_pair b) as (-> & -> & ->).
  by rewrite IH.
Qed.

(** Decoding stops at the first character that is not a hex digit, drops
    a trailing half byte, and reads both cases of the letters. *)
Example hex_decode_truncates :
  Hex.decode "1ag123" = [x1a] ∧ Hex.decode "1a7" = [x1a]
  ∧ Hex.decode "AbCd" = Hex.decode "abcd".
Proof. repeat split. Qed.

(** ** UTF-8 *)

Lemma utf8_decode_valid_fuel n : ∀ bs,
  (length bs ≤ n)%nat → Utf8.valid bs = true → Utf8.decode_from None bs = bs.
Proof.
  induction n as [|n IH]; intros [|b1 rest1] Hlen Hv; try done;
    cbn [length] in Hlen; [lia|].
  cbn [Utf8.valid] in Hv. cbn [Utf8.decode_from Utf8.step].
  unfold Utf8.start, Utf8.lead.
  destruct (Utf8.between 0 127 b1) eqn:H1.
  { cbn [app]. f_equal. apply IH; [lia|done]. }
  destruct (Utf8.between 194 223 b1) eqn:H2.
  { destruct rest1 as [|b2 rest2]; [done|].
    apply andb_true_iff in Hv as [Hb2 Hv].
    cbn [app Utf8.decode_from Utf8.step Utf8.lower Utf8.upper Utf8.needed
         Utf8.seen].
    rewrite Hb2. cbn [app]. do 2 f_equal. apply IH; [cbn in Hlen; lia|done]. }
  destruct (Utf8.between 224 239 b1) eqn:H3.
  { destruct rest1 as [|b2 [|b3 rest3]]; try done.
    apply andb_true_iff in Hv as [Hv Hv3].
    apply andb_true_iff in Hv as [Hb2 Hb3].
    cbn [app Utf8.decode_from Utf8.step Utf8.lower Utf8.upper Utf8.needed
         Utf8.seen].
    rewrite Hb2.
    cbn [app Utf8.decode_from Utf8.step Utf8.lower Utf8.upper Utf8.needed
         Utf8.seen].
    rewrite Hb3. cbn [app]. do 3 f_equal. apply IH; [cbn in Hlen; lia|done]. }
  destruct (Utf8.between 240 244 b1) eqn:H4; [|done].
  destruct rest1 as [|b2 [|b3 [|b4 rest4]]]; try done.
  apply andb_true_iff in Hv as [Hv Hv4].
  apply andb_true_iff in Hv as [Hv Hb4].
  apply andb_true_iff in Hv as [Hb2 Hb3].
  cbn [app Utf8.decode_from Utf8.step Utf8.lower Utf8.upper Utf8.needed
       Utf8.seen].
  rewrite Hb2.
  cbn [app Utf8.decode_from Utf8.step Utf8.lower Utf8.upper Utf8.needed
       Utf8.seen].
  rewrite Hb3.
  cbn [app Utf8.decode_from Utf8.step Utf8.lower Utf8.upper Utf8.needed
       Utf8.seen].
  rewrite Hb4. cbn [app]. do 4 f_equal. apply IH; [cbn in Hlen; lia|done].
Qed.

(** Well-formed UTF-8 is decoded to itself. *)
Lemma utf8_decode_valid bs : Utf8.valid bs = true → Utf8.decode bs = bs.
Proof. apply (utf8_decode_valid_fuel (length bs)). lia. Qed.

Lemma utf8_between_disjoint lo hi lo' hi' b :
  (hi < lo')%N → Utf8.between lo hi b = true → Utf8.between lo' hi' b = false.
Proof.
  unfold Utf8.between. intros Hlt [H1 H2]%andb_true_iff.
  apply N.leb_le in H2. apply andb_false_iff. left. apply N.leb_gt. lia.
Qed.

Lemma utf8_between_below lo hi lo' hi' b :
  (hi' < lo)%N → Utf8.between lo hi b = true → Utf8.between lo' hi' b = false.
Proof.
  unfold Utf8.between. intros Hlt [H1 H2]%andb_true_iff.
  apply N.leb_le in H1. apply andb_false_iff. right. apply N.leb_gt. lia.
Qed.

(** A byte that starts no surrogate is written as it is. *)
Lemma utf8_encode_cons b1 rest :
  Utf8.surrogate b1 rest = false →
  Utf8.encode (b1 :: rest) = b1 :: Utf8.encode rest.
Proof.
  intros H. cbn [Utf8.encode]. destruct rest as [|b2 [|b3 rest']]; try done.
  by rewrite H.
Qed.

Lemma utf8_not_surrogate_lead b1 rest :
  Utf8.between 237 237 b1 = false → Utf8.surrogate b1 rest = false.
Proof.
  intros H. unfold Utf8.surrogate. destruct rest as [|b2 [|b3 rest']]; try done.
  by rewrite H.
Qed.

Lemma utf8_not_surrogate_second b1 b2 rest :
  Utf8.between 160 191 b2 = false → Utf8.surrogate b1 (b2 :: rest) = false.
Proof.
  intros H. unfold Utf8.surrogate. destruct rest as [|b3 rest']; [done|].
  rewrite H. by rewrite andb_false_r.
Qed.

Lemma utf8_encode_valid_fuel n : ∀ bs,
  (length bs ≤ n)%nat → Utf8.valid bs = true → Utf8.encode bs = bs.
Proof.
  assert (Hcont : ∀ lo hi b rest,
            (128 ≤ lo)%N → (hi ≤ 191)%N → Utf8.between lo hi b = true →
            Utf8.surrogate b rest = false).
  { intros lo hi b rest Hlo Hhi Hb. apply utf8_not_surrogate_lead.
    revert Hb. apply utf8_between_disjoint. lia. }
  induction n as [|n IH]; intros [|b1 rest1] Hlen Hv; try done;
    cbn [length] in Hlen; [lia|].
  cbn [Utf8.valid] in Hv.
  destruct (Utf8.between 0 127 b1) eqn:H1.
  { rewrite utf8_encode_cons.
    - f_equal. apply IH; [lia|done].
    - apply utf8_not_surrogate_lead. revert H1.
      apply utf8_between_disjoint. lia. }
  destruct (Utf8.between 194 223 b1) eqn:H2.
  { destruct rest1 as [|b2 rest2]; [done|].
    apply andb_true_iff in Hv as [Hb2 Hv].
    rewrite utf8_encode_cons, utf8_encode_cons.
    - do 2 f_equal. apply IH; [cbn in Hlen; lia|done].
    - by apply (Hcont 128%N 191%N).
    - apply utf8_not_surrogate_lead. revert H2.
      apply utf8_between_disjoint. lia. }
  destruct (Utf8.between 224 239 b1) eqn:H3.
  { destruct rest1 as [|b2 [|b3 rest3]]; try done.
    apply andb_true_iff in Hv as [Hv Hv3].
    apply andb_true_iff in Hv as [Hb2 Hb3].
    rewrite utf8_encode_cons, utf8_encode_cons, utf8_encode_cons.
    - do 3 f_equal. apply IH; [cbn in Hlen; lia|done].
    - by apply (Hcont 128%N 191%N).
    - revert Hb2. destruct (Utf8.between 224 224 b1),
        (Utf8.between 237 237 b1); apply Hcont; lia.
    - destruct (Utf8.between 237 237 b1) eqn:Hed.
      + apply utf8_not_surrogate_second. revert Hb2.
        destruct (Utf8.between 224 224 b1);
          apply utf8_between_disjoint; lia.
      + by apply utf8_not_surrogate_lead. }
  destruct (Utf8.between 240 244 b1) eqn:H4; [|done].
  destruct rest1 as [|b2 [|b3 [|b4 rest4]]]; try done.
  apply andb_true_iff in Hv as [Hv Hv4].
  apply andb_true_iff in Hv as [Hv Hb4].
  apply andb_true_iff in Hv as [Hb2 Hb3].
  rewrite utf8_encode_cons, utf8_encode_cons, utf8_encode_cons,
    utf8_encode_cons.
  - do 4 f_equal. apply IH; [cbn in Hlen; lia|done].
  - by apply (Hcont 128%N 191%N).
  - by apply (Hcont 128%N 191%N).
  - revert Hb2. destruct (Utf8.between 240 240 b1),
      (Utf8.between 244 244 b1); apply Hcont; lia.
  - apply utf8_not_surrogate_lead. revert H4.
    apply utf8_between_below. lia.
Qed.

(** Well-formed UTF-8 has no unpaired surrogate to replace. *)
Lemma utf8_encode_valid bs : Utf8.valid bs = true → Utf8.encode bs = bs.
Proof. apply (utf8_encode_valid_fuel (length bs)). lia. Qed.

(** A well-formed string comes back from its UTF-8 bytes. *)
Lemma from_utf8_utf8 s : isWellFormed s = true → from_utf8 (utf8 s) = s.
Proof.
  intros H. unfold from_utf8, utf8.
  rewrite utf8_encode_valid, utf8_decode_valid by done.
  apply string_of_list_byte_of_string.
Qed.

(** The code units of the first character and of the rest. *)
Lemma js_length_cons a s :
  js_length (String a s)
  = ((if Utf8.between 128 191 (byte_of_ascii a) then 0 else 1)
     + (if Utf8.between 240 244 (byte_of_ascii a) then 1 else 0)
     + js_length s)%nat.
Proof.
  unfold js_length, Utf8.length16.
  change (list_byte_of_string (String a s))
    with (byte_of_ascii a :: list_byte_of_string s).
  cbn [List.filter].
  destruct (Utf8.between 128 191 (byte_of_ascii a)),
    (Utf8.between 240 244 (byte_of_ascii a)); cbn [negb length]; lia.
Qed.

Lemma hex_digits_are_units (b : byte) :
  js_length
    (String (Hex.digit (Byte.to_N b / 16))
       (String (Hex.digit (Byte.to_N b mod 16)) EmptyString)) = 2.
Proof. destruct b; reflexivity. Qed.

(** Hex text has two characters for every byte. *)
Lemma js_length_hex_encode bs :
  js_length (Hex.encode bs) = (2 * length bs)%nat.
Proof.
  induction bs as [|b bs IH]; [done|].
  pose proof (hex_digits_are_units b) as Hb.
  cbn [Hex.encode length]. rewrite !js_length_cons in Hb |- *.
  rewrite IH. change (js_length "") with 0 in Hb. lia.
Qed.

Lemma js_length_hex_encode_even bs :
  Nat.odd (js_length (Hex.encode bs)) = false.
Proof.
  rewrite js_length_hex_encode, Nat.odd_mul. reflexivity.
Qed.
(** ** Counter mode and the tag *)

Lemma xor_bits_involutive (x y : Gcm.bits8) :
  Gcm.xor_bits (Gcm.xor_bits x y) y = x.
Proof.
  destruct x as (a0 & a1 & a2 & a3 & a4 & a5 & a6 & a7).
  destruct y as (b0 & b1 & b2 & b3 & b4 & b5 & b6 & b7).
  cbn. by rewrite !xorb_assoc, !xorb_nilpotent, !xorb_false_r.
Qed.

Lemma xor_byte_involutive (a k : byte) :
  Gcm.xor_byte (Gcm.xor_byte a k) k = a.
Proof.
  unfold Gcm.xor_byte.
  by rewrite Byte.to_bits_of_bits, xor_bits_involutive, Byte.of_bits_to_bits.
Qed.

Lemma ctr_from_involutive (ks : nat → byte) (data : list byte) (i : nat) :
  Gcm.ctr_from ks i (Gcm.ctr_from ks i data) = data.
Proof.
  revert i; induction data as [|b rest IH]; intros i; cbn; [done|].
  by rewrite xor_byte_involutive, IH.
Qed.

Lemma tag_length tg key ivb c :
  length (Gcm.tag tg key ivb c) = 16.
Proof. reflexivity. Qed.

(** Decryption under the key and IV of [seal] gives the payload back. *)
Lemma open_seal ks tg key ivb plain :
  let '(c, t) := Gcm.seal ks tg key ivb plain in
  Gcm.open ks tg key ivb t c = Some plain.
Proof.
  unfold Gcm.seal, Gcm.open.
  rewrite tag_length.
  rewrite (take_ge (Gcm.tag _ _ _ _)) by (rewrite tag_length; lia).
  rewrite bool_decide_true by done.
  unfold Gcm.gctr. by rewrite ctr_from_involutive.
Qed.


(** ** [decrypt] against [encrypt] *)

Lemma decrypt_sealed_entry ks tg key ivb plaintext :
  Gcm.valid_args key ivb = true →
  decrypt ks tg (sealed_entry ks tg key ivb plaintext) key
  = Ok (from_utf8 (utf8 plaintext)).
Proof.
  intros Hargs. unfold decrypt, sealed_entry.
  pose proof (open_seal ks tg key ivb (utf8 plaintext)) as Hopen.
  destruct (Gcm.seal ks tg key ivb (utf8 plaintext)) as [c t] eqn:Hseal.
  cbn [iv authTag ciphertext].
  rewrite !hex_decode_encode, Hargs, js_length_hex_encode_even. cbn [negb].
  assert (t = Gcm.tag tg key ivb c) as Ht by (unfold Gcm.seal in Hseal; congruence).
  rewrite Ht at 1. rewrite tag_length. cbn [Gcm.valid_tag_length Nat.eqb Nat.leb orb andb negb].
  by rewrite Hopen.
Qed.

(** ** Runs of the building blocks *)

(** Runs a tactic on one goal at a time, to its end, before the next. *)
Ltac each_goal tac := lazymatch goal with |- _ => tac end.

(** From [H : Ok x = Ok k] with [k] a variable: replaces [k] by [x] as it
    is written, or closes the goal when [H] equates [Throw] and [Ok]. *)
Ltac key_of H :=
  lazymatch type of H with
  | Ok ?x = Ok ?k =>
      let E := fresh in
      assert (E : k = x) by congruence; clear H; subst k
  | Throw _ = Ok _ => discriminate H
  end.

Lemma bind_ok {A B} (m : M A) (k : A → M B) w a w1 es :
  m w = MkRun (Ok a) w1 es →
  bind m k w = match k a w1 with
               | MkRun o w2 es' => MkRun o w2 (es ++ es')
               end.
Proof. unfold bind. by intros ->. Qed.

Lemma bind_throw {A B} (m : M A) (k : A → M B) w err w1 es :
  m w = MkRun (Throw err) w1 es →
  bind m k w = MkRun (Throw err) w1 es.
Proof. unfold bind. by intros ->. Qed.

Lemma loadKeystoreData_run w :
  outcome (loadKeystoreData w)
    = match keystore_file w with
      | Some (NotJson _) => Throw SyntaxError
      | _ => Ok (document w)
      end
  ∧ after (loadKeystoreData w) = with_dir w.
Proof. by destruct w as [kt [] [[d|raw]|] kf v]. Qed.

Lemma getMasterKey_dir_exists pf w :
  dir_exists (after (getMasterKey pf w)) = true.
Proof.
  by destruct pf as [[] [] [] tp],
    w as [[] [] [[[ver [] s]|raw]|] [kf|] [[|c p]|]].
Qed.

(** The key that one acquisition returned is the key that the next one
    returns, whatever was stored in between, as long as the vault behaves
    the same. *)
Lemma getMasterKey_again pf pf' w k s :
  same_vault pf pf' →
  outcome (getMasterKey pf w) = Ok k →
  let w1 := after (getMasterKey pf w) in
  outcome (getMasterKey pf' (with_document (with_secrets s (document w1)) w1))
    = Ok k.
Proof.
  destruct pf as [imp gr sr tp], pf' as [imp' gr' sr' tp'].
  intros (Himp & Hsr & Hgr); cbn in Himp, Hsr, Hgr; subst imp' sr' gr'.
  destruct imp, gr, sr,
    w as [[] [] [[[ver [] sec]|raw]|] [kf|] [[|c p]|]];
    each_goal ltac:(
      intros H; lazy -[Hex.encode Hex.decode map seq] in H; key_of H;
      first [ reflexivity
            | etransitivity; [|apply f_equal, hex_decode_encode]; reflexivity ]).
Qed.

Lemma getMasterKey_ok_world pf w k :
  outcome (getMasterKey pf w) = Ok k →
  dir_exists (after (getMasterKey pf w)) = true
  ∧ parses (after (getMasterKey pf w)) = true.
Proof.
  destruct pf as [[] [] [] tp],
    w as [[] [] [[[ver [] sec]|raw]|] [kf|] [[|c p]|]];
    each_goal ltac:(
      intros H; lazy -[Hex.encode Hex.decode map seq] in H; key_of H;
      split; reflexivity).
Qed.

Lemma storeSecret_run ks tg pf key value w k :
  outcome (getMasterKey pf w) = Ok k →
  let w1 := after (getMasterKey pf w) in
  let ivb := map (tape pf) (seq 32 12) in
  let e := sealed_entry ks tg k ivb value in
  if Gcm.valid_args k ivb
  then outcome (storeSecret ks tg pf key value w) = Ok tt
       ∧ after (storeSecret ks tg pf key value w)
         = with_document
             (with_secrets (Js.set (secrets (document w1)) key e) (document w1))
             w1
  else outcome (storeSecret ks tg pf key value w) = Throw CryptoError.
Proof.
  intros H. destruct (getMasterKey_ok_world _ _ _ H) as [Hdir Hparse].
  unfold storeSecret, mbind, M_bind.
  destruct (getMasterKey pf w) as [o [kt1 dir1 ksf1 kf1 v1] es] eqn:E.
  cbn in H, Hdir, Hparse; subst o dir1.
  rewrite (bind_ok (getMasterKey pf) _ w _ _ _ E).
  destruct ksf1 as [[d|raw]|]; try discriminate Hparse;
    lazy -[Gcm.valid_args sealed_entry Js.set map seq app];
    destruct (Gcm.valid_args _ _); try split; reflexivity.
Qed.

Lemma storeSecret_key_failure ks tg pf key value w err :
  outcome (getMasterKey pf w) = Throw err →
  outcome (storeSecret ks tg pf key value w) = Throw err.
Proof.
  intros H. unfold storeSecret, mbind, M_bind.
  destruct (getMasterKey pf w) as [o w1 es] eqn:E. cbn in H; subst o.
  by rewrite (bind_throw (getMasterKey pf) _ w _ _ _ E).
Qed.

Lemma getSecret_run ks tg pf key w :
  outcome (getSecret ks tg pf key w)
  = match keystore_file w with
    | Some (NotJson _) => Throw SyntaxError
    | _ =>
        match Js.get (secrets (document w)) key with
        | Js.Undefined => Ok None
        | Js.Own e =>
            match outcome (getMasterKey pf (with_dir w)) with
            | Ok k => Ok (match decrypt ks tg e k with
                          | Ok plain => Some plain
                          | Throw _ => None
                          end)
            | Throw err => Throw err
            end
        | Js.Inherited =>
            match outcome (getMasterKey pf (with_dir w)) with
            | Ok _ => Ok None
            | Throw err => Throw err
            end
        end
    end.
Proof.
  destruct w as [kt [] [[d|raw]|] kf v];
    each_goal ltac:(
      lazy -[getMasterKey Js.get decrypt]; try reflexivity;
      destruct (Js.get _ _); try reflexivity;
      destruct (getMasterKey _ _) as [[k|err] w' es]; try reflexivity;
      destruct (decrypt _ _ _ _); reflexivity).
Qed.

Lemma js_get_set obj key e :
  key ≠ "__proto__" → Js.get (Js.set obj key e) key = Js.Own e.
Proof.
  intros Hne. unfold Js.get, Js.set.
  rewrite bool_decide_false by done.
  destruct (obj !! key); by rewrite lookup_insert_eq.
Qed.

Lemma js_set_other obj key e key' :
  key' ≠ key → Js.set obj key e !! key' = obj !! key'.
Proof.
  intros Hne. unfold Js.set.
  destruct (obj !! key); [by rewrite lookup_insert_ne|].
  case_bool_decide; [done | by rewrite lookup_insert_ne].
Qed.

Lemma js_set_lookup obj key e :
  key ≠ "__proto__" → Js.set obj key e !! key = Some e.
Proof.
  intros Hne. unfold Js.set.
  rewrite bool_decide_false by done.
  destruct (obj !! key); by rewrite lookup_insert_eq.
Qed.

(** Storing and reading back, for every identifier that [Js.set] stores
    as an own property. *)
Lemma store_then_get ks tg pf pf' key value w :
  key ≠ "__proto__" →
  same_vault pf pf' →
  outcome (storeSecret ks tg pf key value w) = Ok tt →
  outcome (getSecret ks tg pf' key (after (storeSecret ks tg pf key value w)))
    = Ok (Some (from_utf8 (utf8 value))).
Proof.
  intros Hkey Hsame Hstore.
  destruct (outcome (getMasterKey pf w)) as [k|err] eqn:Hk;
    [|by rewrite (storeSecret_key_failure _ _ _ _ _ _ _ Hk) in Hstore].
  pose proof (storeSecret_run ks tg pf key value w k Hk) as Hrun.
  cbn zeta in Hrun.
  destruct (Gcm.valid_args k _) eqn:Hargs; [|congruence].
  destruct Hrun as [_ ->].
  rewrite getSecret_run.
  cbn [with_document keystore_file document with_secrets secrets].
  rewrite js_get_set by done.
  set (w1 := after (getMasterKey pf w)).
  replace (with_dir _) with
    (with_document
       (with_secrets
          (Js.set (secrets (document w1)) key
             (sealed_entry ks tg k (map (tape pf) (seq 32 12)) value))
          (document w1)) w1).
  - rewrite (getMasterKey_again pf pf' w k _ Hsame Hk).
    by rewrite decrypt_sealed_entry.
  - unfold with_dir, with_document; cbn.
    subst w1. by rewrite getMasterKey_dir_exists.
Qed.

(** ** Reading operations *)

(** Names of [Object.prototype] are found on an empty object; the
    assignment to [__proto__] adds no own property, the assignment to any
    other of them does. *)
Example js_inherited_names (e : KeystoreEntry) :
  Js.has ∅ "toString" = true
  ∧ Js.get ∅ "constructor" = Js.Inherited
  ∧ Js.get ∅ "proj:openai" = Js.Undefined
  ∧ Js.set ∅ "__proto__" e = ∅
  ∧ Js.set ∅ "constructor" e !! "constructor" = Some e.
Proof. repeat split. Qed.

Lemma hasSecret_run key w :
  outcome (hasSecret key w)
    = (if parses w then Ok (Js.has (secrets (document w)) key)
       else Throw SyntaxError)
  ∧ after (hasSecret key w) = with_dir w
  ∧ effects (hasSecret key w)
    = ((if dir_exists w then [] else [EMkdir])
       ++ match keystore_file w with Some _ => [EReadDoc] | None => [] end)%list.
Proof. by destruct w as [kt [] [[d|raw]|] kf v]. Qed.

Lemma js_has_own obj key :
  key ∉ Js.object_prototype →
  Js.has obj key = true ↔ is_Some (obj !! key).
Proof.
  intros Hkey. unfold Js.has.
  destruct (obj !! key) as [e|].
  - split; [eauto | done].
  - rewrite bool_decide_false by done. split; [done | by intros [e ?]].
Qed.

Lemma js_get_own obj key :
  key ∉ Js.object_prototype →
  obj !! key = None → Js.get obj key = Js.Undefined.
Proof.
  intros Hkey Hnone. unfold Js.get.
  by rewrite Hnone, bool_decide_false.
Qed.

(** Without a property of that name, own or inherited, [getSecret] stops
    after reading the document. *)
Lemma getSecret_undefined ks tg pf key w :
  parses w = true →
  Js.get (secrets (document w)) key = Js.Undefined →
  getSecret ks tg pf key w
  = MkRun (Ok None) (with_dir w)
      ((if dir_exists w then [] else [EMkdir])
       ++ match keystore_file w with Some _ => [EReadDoc] | None => [] end)%list.
Proof.
  destruct w as [kt [] [[[ver fl sec]|raw]|] kf v]; intros Hp Hget;
    try discriminate Hp;
    lazy -[Js.get getMasterKey decrypt] in Hget |- *; now rewrite Hget.
Qed.

Lemma deleteSecret_run key w :
  parses w = true →
  let s := secrets (document w) in
  match Js.get s key with
  | Js.Undefined =>
      outcome (deleteSecret key w) = Ok false
      ∧ after (deleteSecret key w) = with_dir w
      ∧ existsb is_doc_write (effects (deleteSecret key w)) = false
  | _ =>
      outcome (deleteSecret key w) = Ok true
      ∧ after (deleteSecret key w)
        = with_document (with_secrets (Js.remove s key) (document w))
            (with_dir w)
      ∧ existsb is_doc_write (effects (deleteSecret key w)) = true
  end.
Proof.
  destruct w as [kt [] [[[ver fl sec]|raw]|] kf v]; intros Hp;
    try discriminate Hp;
    lazy -[Js.get Js.remove]; destruct (Js.get _ _); repeat split; reflexivity.
Qed.

(** ** Errors of the vault *)

Lemma getMasterKey_throws pf w err :
  outcome (getMasterKey pf w) = Throw err →
  (err = SyntaxError ∧ parses w = false)
  ∨ (err = VaultError ∧ getPassword_rejects pf = true).
Proof.
  destruct pf as [[] [] [] tp],
    w as [[] [] [[[ver [] sec]|raw]|] [kf|] [[|c p]|]];
    each_goal ltac:(
      intros H; lazy -[Hex.encode Hex.decode map seq] in H;
      first [ discriminate H
            | injection H as <-; first [ by left | by right ] ]).
Qed.

Lemma getMasterKey_read_rejected pf w :
  masterKeyInKeychain (document w) = true →
  keytar w || keytar_importable pf = true →
  getPassword_rejects pf = true →
  outcome (getMasterKey pf w) = Throw VaultError.
Proof.
  destruct pf as [[] [] [] tp],
    w as [[] [] [[[ver [] sec]|raw]|] [kf|] [[|c p]|]];
    each_goal ltac:(cbn; intros Hflag Hkt Hrej;
                    first [ discriminate | reflexivity ]).
Qed.

(** ** Identifiers that are stored as own properties *)

Lemma hasSecret_own key w :
  key ∉ Js.object_prototype →
  parses w = true →
  outcome (hasSecret key w)
  = Ok (bool_decide (is_Some (secrets (document w) !! key))).
Proof.
  intros Hkey Hp. destruct (hasSecret_run key w) as (-> & _ & _).
  rewrite Hp. f_equal.
  pose proof (js_has_own (secrets (document w)) key Hkey) as Hiff.
  destruct (Js.has _ _); symmetry.
  - apply bool_decide_eq_true, Hiff; reflexivity.
  - apply bool_decide_eq_false. intros Hsome. by apply Hiff in Hsome.
Qed.

Lemma deleteSecret_present key w e :
  parses w = true →
  secrets (document w) !! key = Some e →
  outcome (deleteSecret key w) = Ok true
  ∧ secrets (document (after (deleteSecret key w)))
    = delete key (secrets (document w)).
Proof.
  intros Hp He. pose proof (deleteSecret_run key w Hp) as Hrun.
  cbn zeta in Hrun. unfold Js.get in Hrun. rewrite He in Hrun.
  destruct Hrun as (-> & -> & _). done.
Qed.

Lemma deleteSecret_absent key w :
  key ∉ Js.object_prototype →
  parses w = true →
  secrets (document w) !! key = None →
  outcome (deleteSecret key w) = Ok false
  ∧ after (deleteSecret key w) = with_dir w
  ∧ existsb is_doc_write (effects (deleteSecret key w)) = false.
Proof.
  intros Hkey Hp Hnone. pose proof (deleteSecret_run key w Hp) as Hrun.
  cbn zeta in Hrun. by rewrite (js_get_own _ _ Hkey Hnone) in Hrun.
Qed.

Lemma listSecretKeys_run w :
  outcome (listSecretKeys w)
    = (if parses w then Ok (Js.keys (secrets (document w)))
       else Throw SyntaxError)
  ∧ after (listSecretKeys w) = with_dir w.
Proof. by destruct w as [kt [] [[d|raw]|] kf v]. Qed.

(** [Object.keys] lists every own key once. *)
Lemma js_keys_once (obj : gmap string KeystoreEntry) key :
  NoDup (Js.keys obj) ∧ (key ∈ Js.keys obj ↔ is_Some (obj !! key)).
Proof.
  unfold Js.keys. split; [apply NoDup_fst_map_to_list|].
  rewrite list_elem_of_fmap. split.
  - intros ([k e] & -> & Hin). apply elem_of_map_to_list in Hin. eauto.
  - intros [e He]. exists (key, e). split; [done|].
    by apply elem_of_map_to_list.
Qed.

Lemma getMasterKey_keeps_secrets pf w k :
  outcome (getMasterKey pf w) = Ok k →
  secrets (document (after (getMasterKey pf w))) = secrets (document w).
Proof.
  destruct pf as [[] [] [] tp],
    w as [[] [] [[[ver [] sec]|raw]|] [kf|] [[|c p]|]];
    each_goal ltac:(
      intros H; lazy -[Hex.encode Hex.decode map seq] in H; key_of H;
      reflexivity).
Qed.

(** What [storeSecret] leaves in the document. *)
Lemma storeSecret_document ks tg pf key value w :
  outcome (storeSecret ks tg pf key value w) = Ok tt →
  ∃ e, secrets (document (after (storeSecret ks tg pf key value w)))
       = Js.set (secrets (document w)) key e.
Proof.
  intros Hstore.
  destruct (outcome (getMasterKey pf w)) as [k|err] eqn:Hk;
    [|by rewrite (storeSecret_key_failure _ _ _ _ _ _ _ Hk) in Hstore].
  pose proof (storeSecret_run ks tg pf key value w k Hk) as Hrun.
  cbn zeta in Hrun.
  destruct (Gcm.valid_args k _); [|congruence].
  destruct Hrun as [_ ->]. eexists.
  cbn [with_document keystore_file document with_secrets secrets].
  by rewrite (getMasterKey_keeps_secrets pf w k Hk).
Qed.

(** Storing twice under an identifier other than [__proto__]: the second
    plaintext is read back, the identifier is listed once, and the entries
    of the other identifiers are those from before. *)
Lemma store_overwrite ks tg pf1 pf2 pf3 key p1 p2 w :
  key ≠ "__proto__" →
  same_vault pf2 pf3 →
  let r1 := storeSecret ks tg pf1 key p1 w in
  let r2 := storeSecret ks tg pf2 key p2 (after r1) in
  outcome r1 = Ok tt →
  outcome r2 = Ok tt →
  outcome (getSecret ks tg pf3 key (after r2))
  = Ok (Some (from_utf8 (utf8 p2)))
  ∧ (∃ keys, outcome (listSecretKeys (after r2)) = Ok keys
             ∧ NoDup keys ∧ key ∈ keys)
  ∧ ∀ key', key' ≠ key →
      secrets (document (after r2)) !! key' = secrets (document w) !! key'.
Proof.
  intros Hkey Hsame r1 r2 H1 H2.
  destruct (storeSecret_document _ _ _ _ _ _ H1) as [e1 Hd1].
  destruct (storeSecret_document _ _ _ _ _ _ H2) as [e2 Hd2].
  fold r1 in Hd1, Hd2. fold r2 in Hd2.
  split; [by apply store_then_get|]. split.
  - destruct (listSecretKeys_run (after r2)) as [Hkeys _].
    assert (parses (after r2) = true) as Hp.
    { destruct (getSecret_run ks tg pf3 key (after r2)) as [].
      pose proof (store_then_get ks tg pf2 pf3 key p2 (after r1) Hkey Hsame H2)
        as Hget.
      fold r2 in Hget. rewrite getSecret_run in Hget. unfold parses.
      by destruct (keystore_file (after r2)) as [[?|?]|]. }
    rewrite Hp in Hkeys. eexists. split; [exact Hkeys|].
    destruct (js_keys_once (secrets (document (after r2))) key) as [Hnd Hin].
    split; [done|]. apply Hin. rewrite Hd2, js_set_lookup by done. eauto.
  - intros key' Hne. by rewrite Hd2, js_set_other, Hd1, js_set_other.
Qed.

(** A rejected [setPassword] is not an error of the acquisition: it falls
    back to the key file. *)
Lemma setPassword_rejection_is_absorbed pf w :
  parses w = true →
  getPassword_rejects pf = false →
  ∃ k, outcome (getMasterKey pf w) = Ok k.
Proof.
  intros Hp Hrej.
  destruct (outcome (getMasterKey pf w)) as [k|err] eqn:Hk; [eauto|].
  destruct (getMasterKey_throws pf w err Hk) as [[_ ?]|[_ ?]]; congruence.
Qed.

(** ** Tampering *)






(** [getSecret] on the document in which the entry that [storeSecret]
    wrote was replaced: the master key is the one of [storeSecret], and the
    result is what [decrypt] makes of the new entry. *)
Lemma getSecret_replaced ks tg pf pf' key value w k e' :
  same_vault pf pf' →
  outcome (storeSecret ks tg pf key value w) = Ok tt →
  outcome (getMasterKey pf w) = Ok k →
  outcome
    (getSecret ks tg pf' key
       (replace_entry key e' (after (storeSecret ks tg pf key value w))))
  = Ok (match decrypt ks tg e' k with
        | Ok plain => Some plain
        | Throw _ => None
        end).
Proof.
  intros Hsame Hstore Hk.
  pose proof (storeSecret_run ks tg pf key value w k Hk) as Hrun.
  cbn zeta in Hrun.
  destruct (Gcm.valid_args k _) eqn:Hargs; [|congruence].
  destruct Hrun as [_ ->].
  set (e := sealed_entry ks tg k (map (tape pf) (seq 32 12)) value).
  set (w1 := after (getMasterKey pf w)).
  rewrite getSecret_run.
  cbn [replace_entry with_document keystore_file document with_secrets secrets].
  unfold Js.get. rewrite lookup_insert_eq.
  set (s' := <[key:=e']> (Js.set (secrets (document w1)) key e)).
  replace (getMasterKey pf' (with_dir _))
    with (getMasterKey pf' (with_document (with_secrets s' (document w1)) w1)).
  - pose proof (getMasterKey_again pf pf' w k s' Hsame Hk) as Hagain.
    cbn zeta in Hagain. fold w1 in Hagain. by rewrite Hagain.
  - f_equal. unfold with_dir, with_document, with_secrets; cbn.
    subst w1. by rewrite getMasterKey_dir_exists.
Qed.










(** ** The claims *)

(** C1 fails at the identifier [__proto__]: [storeSecret] succeeds and
    stores nothing, and [getSecret] then returns [null], whatever the cipher
    and the plaintext. *)
Theorem proto_secret_is_not_stored ks tg value :
  let r1 := storeSecret ks tg Demo.no_keytar "__proto__" value fresh_world in
  outcome r1 = Ok tt
  ∧ secrets (document (after r1)) = ∅
  ∧ outcome (getSecret ks tg Demo.no_keytar "__proto__" (after r1)) = Ok None.
Proof. repeat split; reflexivity. Qed.

(** C2 fails for the read of the vault: when keystore.json says that the
    key is in the vault and keytar is there, a rejected [getPassword]
    rejects [storeSecret], and [getSecret] too when it looks for the key. *)
Theorem vault_read_rejection_propagates ks tg pf key value w :
  masterKeyInKeychain (document w) = true →
  keytar w || keytar_importable pf = true →
  getPassword_rejects pf = true →
  Js.truthy (Js.get (secrets (document w)) key) = true →
  outcome (storeSecret ks tg pf key value w) = Throw VaultError
  ∧ outcome (getSecret ks tg pf key w) = Throw VaultError.
Proof.
  intros Hflag Hkt Hrej Hentry. split.
  - apply storeSecret_key_failure. by apply getMasterKey_read_rejected.
  - rewrite getSecret_run.
    assert (outcome (getMasterKey pf (with_dir w)) = Throw VaultError) as ->
      by (apply getMasterKey_read_rejected; [by destruct w as [? ? [[?|?]|] ? ?]
                                            | done | done]).
    destruct w as [kt dir [[d|raw]|] kf v]; cbn in Hflag, Hentry |- *;
      try discriminate Hflag.
    by destruct (Js.get (secrets d) key).
Qed.

Lemma vault_read_rejection_propagates_witness :
  outcome (Demo.store Demo.locked_keychain "proj:openai" "sk_live"
             Demo.vault_backed) = Throw VaultError
  ∧ outcome (Demo.get Demo.locked_keychain "proj:openai" Demo.vault_backed)
    = Throw VaultError.
Proof.
  apply (vault_read_rejection_propagates Demo.keystream Demo.tag
           Demo.locked_keychain "proj:openai" "sk_live" Demo.vault_backed);
    reflexivity.
Defined.

(** Where keystore.json can be written, it has after [getMasterKey] the
    flag of the last key write of the run: [true], written, when
    [setPassword] succeeded; [false], written, when the key went into the
    key file; the file as it was, and neither vault nor key file written,
    when no key was written. *)
Lemma masterKeyInKeychain_tracks_key_write pf w :
  let r := getMasterKey pf w in
  match last_key_write (effects r) with
  | Some InVault =>
      persisted_flag (after r) = Some true
      ∧ existsb is_doc_write (effects r) = true
      ∧ ∃ k, outcome r = Ok k ∧ vault (after r) = Some (Hex.encode k)
  | Some InFile =>
      persisted_flag (after r) = Some false
      ∧ existsb is_doc_write (effects r) = true
      ∧ ∃ k, outcome r = Ok k ∧ key_file (after r) = Some (Hex.encode k)
  | None =>
      keystore_file (after r) = keystore_file w
      ∧ existsb is_doc_write (effects r) = false
      ∧ vault (after r) = vault w
      ∧ key_file (after r) = key_file w
  end.
Proof.
  destruct pf as [[] [] [] tp],
    w as [[] [] [[[v [] s]|raw]|] [kf|] [[|c p]|]];
    each_goal ltac:(
      lazy -[Hex.encode Hex.decode map seq];
      repeat split; eexists; split; reflexivity).
Qed.

(** C4 fails where keystore.json cannot be written.  The [try] around
    [setPassword] is also around [saveKeystoreData]: after a vault write
    that succeeded, the error of [writeFileSync] is caught like a rejection
    of the vault, and the acquisition completes with the key of the key
    file.  The vault then holds a new key, the last key written, and
    keystore.json still has the flag [false], unwritten.  On the path of
    the key file [saveKeystoreData] is outside the [try], and the same error
    ends the acquisition. *)
Theorem vault_write_is_not_recorded :
  let w := restart Demo.one_secret in
  let r := getMasterKey_on KeystoreReadOnly Demo.keychain_later w in
  let newKey := map (tape Demo.keychain_later) (seq 0 32) in
  persisted_flag w = Some false
  ∧ vault w = None
  ∧ (∃ k, outcome r = Ok k ∧ key_file w = Some (Hex.encode k) ∧ k ≠ newKey)
  ∧ last_key_write (effects r) = Some InVault
  ∧ vault (after r) = Some (Hex.encode newKey)
  ∧ persisted_flag (after r) = Some false
  ∧ existsb is_doc_write (effects r) = false
  ∧ outcome (getMasterKey_on KeystoreReadOnly Demo.keychain_later fresh_world)
    = Throw IOError.
Proof.
  repeat split; try (vm_compute; reflexivity).
  eexists. split; [vm_compute; reflexivity|].
  split; vm_compute; [reflexivity|discriminate].
Qed.

(** C5, as amended.  [getKeystoreInfo] returns the path and the flag of
    keystore.json ([false] without the file), throws on text that is not
    JSON, and changes nothing but the directory, which it creates when it is
    missing. *)
Theorem getKeystoreInfo_effects home w :
  let r := getKeystoreInfo home w in
  outcome r = match keystore_file w with
              | None => Ok (KEYSTORE_FILE home, false)
              | Some (Json d) => Ok (KEYSTORE_FILE home, masterKeyInKeychain d)
              | Some (NotJson _) => Throw SyntaxError
              end
  ∧ after r = (if dir_exists w then w else with_dir w)
  ∧ effects r
    = ((if dir_exists w then [] else [EMkdir])
       ++ match keystore_file w with Some _ => [EReadDoc] | None => [] end)%list.
Proof. destruct w as [kt [] [[d|raw]|] kf v]; repeat split. Qed.

(** C5 as stated fails: without the directory, [getKeystoreInfo] creates
    it. *)
Lemma getKeystoreInfo_creates_directory :
  let r := getKeystoreInfo Demo.home fresh_world in
  dir_exists fresh_world = false
  ∧ dir_exists (after r) = true
  ∧ effects r = [EMkdir].
Proof. repeat split. Qed.

(** C6 fails at an identifier that [Object.prototype] has: without an entry
    of that name [deleteSecret] returns [true] and writes the document. *)
Theorem deleteSecret_inherited_name :
  let r := deleteSecret "toString" Demo.one_secret in
  secrets (document Demo.one_secret) !! "toString" = None
  ∧ outcome r = Ok true
  ∧ existsb is_doc_write (effects r) = true.
Proof. repeat split. Qed.

(** C7 fails at the identifier [__proto__]: two calls of [storeSecret]
    succeed, [getSecret] returns [null] and [listSecretKeys] does not list
    the identifier. *)
Theorem proto_secret_overwrite ks tg p1 p2 :
  let r1 := storeSecret ks tg Demo.no_keytar "__proto__" p1 fresh_world in
  let r2 := storeSecret ks tg Demo.no_keytar "__proto__" p2 (after r1) in
  outcome r1 = Ok tt
  ∧ outcome r2 = Ok tt
  ∧ outcome (getSecret ks tg Demo.no_keytar "__proto__" (after r2)) = Ok None
  ∧ outcome (listSecretKeys (after r2)) = Ok [].
Proof. repeat split; reflexivity. Qed.

(** C8.  On a keystore.json that is not JSON every operation throws the
    error of [JSON.parse], leaves the text in place and writes no
    document. *)
Theorem malformed_document_is_fatal ks tg home pf key value raw w :
  keystore_file w = Some (NotJson raw) →
  parse_failure raw (storeSecret ks tg pf key value w)
  ∧ parse_failure raw (getSecret ks tg pf key w)
  ∧ parse_failure raw (deleteSecret key w)
  ∧ parse_failure raw (hasSecret key w)
  ∧ parse_failure raw (listSecretKeys w)
  ∧ parse_failure raw (getKeystoreInfo home w).
Proof.
  destruct w as [kt dir ksf kf v]; cbn; intros ->.
  unfold parse_failure.
  destruct pf as [imp gr sr tp], kt, dir, imp; repeat split; reflexivity.
Qed.

Lemma malformed_document_is_fatal_witness :
  parse_failure "{ version: 1,"
    (Demo.store Demo.keychain "proj:openai" "sk-test-123" Demo.corrupted)
  ∧ parse_failure "{ version: 1,"
      (Demo.get Demo.keychain "proj:openai" Demo.corrupted)
  ∧ parse_failure "{ version: 1," (deleteSecret "proj:openai" Demo.corrupted)
  ∧ parse_failure "{ version: 1," (hasSecret "proj:openai" Demo.corrupted)
  ∧ parse_failure "{ version: 1," (listSecretKeys Demo.corrupted)
  ∧ parse_failure "{ version: 1," (getKeystoreInfo Demo.home Demo.corrupted).
Proof.
  apply (malformed_document_is_fatal Demo.keystream Demo.tag Demo.home
           Demo.keychain "proj:openai" "sk-test-123" "{ version: 1,"
           Demo.corrupted).
  reflexivity.
Defined.

(** C9 fails at an identifier that [Object.prototype] has: [hasSecret]
    returns [true] without an entry of that name. *)
Theorem hasSecret_inherited_name :
  secrets (document Demo.one_secret) !! "toString" = None
  ∧ outcome (hasSecret "toString" Demo.one_secret) = Ok true.
Proof. split; reflexivity. Qed.

(** C10 fails at an identifier that [Object.prototype] has: in a world
    with no keystore at all, [getSecret] returns [null] after it drew a
    master key and wrote it, to the key file without keytar, to the vault
    with it, and wrote the document. *)
Theorem getSecret_inherited_name_acquires_key ks tg :
  let r := getSecret ks tg Demo.no_keytar "toString" fresh_world in
  let r' := getSecret ks tg Demo.keychain "toString" fresh_world in
  secrets (document fresh_world) !! "toString" = None
  ∧ outcome r = Ok None
  ∧ effects r
    = [ EMkdir; EImportKeytar false; ERandomBytes 32;
        EWriteKeyFile (Hex.encode (map Demo.dice (seq 0 32)));
        EWriteDoc empty_document ]
  ∧ key_file (after r) = Some (Hex.encode (map Demo.dice (seq 0 32)))
  ∧ outcome r' = Ok None
  ∧ effects r'
    = [ EMkdir; EImportKeytar true; ERandomBytes 32; ESetPassword true;
        EWriteDoc (with_flag true empty_document) ]
  ∧ vault (after r') = Some (Hex.encode (map Demo.dice (seq 0 32))).
Proof. repeat split; reflexivity. Qed.

(** * Further properties *)

(** ** What a successful [storeSecret] did *)

Lemma storeSecret_ok ks tg pf key value w :
  outcome (storeSecret ks tg pf key value w) = Ok tt →
  ∃ k, outcome (getMasterKey pf w) = Ok k
       ∧ Gcm.valid_args k (map (tape pf) (seq 32 12)) = true
       ∧ after (storeSecret ks tg pf key value w)
         = with_document
             (with_secrets
                (Js.set (secrets (document (after (getMasterKey pf w)))) key
                   (sealed_entry ks tg k (map (tape pf) (seq 32 12)) value))
                (document (after (getMasterKey pf w))))
             (after (getMasterKey pf w)).
Proof.
  intros Hstore.
  destruct (outcome (getMasterKey pf w)) as [k|err] eqn:Hk;
    [|by rewrite (storeSecret_key_failure _ _ _ _ _ _ _ Hk) in Hstore].
  pose proof (storeSecret_run ks tg pf key value w k Hk) as Hrun.
  cbn zeta in Hrun.
  destruct (Gcm.valid_args k _) eqn:Hargs; [|congruence].
  destruct Hrun as [_ Hafter]. by exists k.
Qed.

Lemma with_dir_after_store pf w d :
  with_dir (with_document d (after (getMasterKey pf w)))
  = with_document d (after (getMasterKey pf w)).
Proof.
  unfold with_dir, with_document; cbn.
  by rewrite getMasterKey_dir_exists.
Qed.

(** X1.  Storing and reading back: after a [storeSecret] that resolved,
    under an identifier other than [__proto__], of a plaintext without
    unpaired surrogates, with the vault behaving as before, [getSecret]
    returns the plaintext. *)
Theorem store_get_round_trip ks tg pf pf' key value w :
  key ≠ "__proto__" →
  isWellFormed value = true →
  same_vault pf pf' →
  outcome (storeSecret ks tg pf key value w) = Ok tt →
  outcome (getSecret ks tg pf' key (after (storeSecret ks tg pf key value w)))
  = Ok (Some value).
Proof.
  intros Hkey Hvalue Hsame Hstore.
  rewrite store_then_get by done. by rewrite from_utf8_utf8.
Qed.

Lemma store_get_round_trip_witness :
  outcome (Demo.get Demo.keychain "proj:openai"
             (after (Demo.store Demo.keychain "proj:openai" "sk-test-123"
                       fresh_world)))
  = Ok (Some "sk-test-123").
Proof.
  apply (store_get_round_trip Demo.keystream Demo.tag Demo.keychain
           Demo.keychain "proj:openai" "sk-test-123" fresh_world).
  - discriminate.
  - vm_compute. reflexivity.
  - repeat split.
  - vm_compute. reflexivity.
Defined.

(** X2.  Storing twice under one identifier other than [__proto__]: the
    second plaintext, when it has no unpaired surrogate, is read back,
    [listSecretKeys] lists the identifier once, and the entries of all other
    identifiers are those from before. *)
Theorem store_twice_keeps_latest ks tg pf1 pf2 pf3 key p1 p2 w :
  key ≠ "__proto__" →
  isWellFormed p2 = true →
  same_vault pf2 pf3 →
  let r1 := storeSecret ks tg pf1 key p1 w in
  let r2 := storeSecret ks tg pf2 key p2 (after r1) in
  outcome r1 = Ok tt →
  outcome r2 = Ok tt →
  outcome (getSecret ks tg pf3 key (after r2)) = Ok (Some p2)
  ∧ (∃ keys, outcome (listSecretKeys (after r2)) = Ok keys
             ∧ NoDup keys ∧ key ∈ keys)
  ∧ ∀ key', key' ≠ key →
      secrets (document (after r2)) !! key' = secrets (document w) !! key'.
Proof.
  intros Hkey Hp2 Hsame r1 r2 H1 H2.
  destruct (store_overwrite ks tg pf1 pf2 pf3 key p1 p2 w Hkey Hsame H1 H2)
    as (Hget & Hkeys & Hframe).
  rewrite from_utf8_utf8 in Hget by done. done.
Qed.

Lemma store_twice_keeps_latest_witness :
  let r1 := Demo.store Demo.no_keytar "proj:openai" "sk-old" Demo.one_secret in
  let r2 := Demo.store Demo.no_keytar "proj:openai" "sk-new" (after r1) in
  outcome (Demo.get Demo.no_keytar "proj:openai" (after r2)) = Ok (Some "sk-new")
  ∧ (∃ keys, outcome (listSecretKeys (after r2)) = Ok keys
             ∧ NoDup keys ∧ "proj:openai" ∈ keys)
  ∧ ∀ key', key' ≠ "proj:openai" →
      secrets (document (after r2)) !! key'
      = secrets (document Demo.one_secret) !! key'.
Proof.
  apply (store_twice_keeps_latest Demo.keystream Demo.tag Demo.no_keytar
           Demo.no_keytar Demo.no_keytar "proj:openai" "sk-old" "sk-new"
           Demo.one_secret).
  - discriminate.
  - vm_compute. reflexivity.
  - repeat split.
  - vm_compute. reflexivity.
  - vm_compute. reflexivity.
Defined.

(** ** Secrets under different identifiers *)

Lemma getMasterKey_after_store ks tg pf pf' key value w k :
  same_vault pf pf' →
  outcome (storeSecret ks tg pf key value w) = Ok tt →
  outcome (getMasterKey pf w) = Ok k →
  outcome (getMasterKey pf' (after (storeSecret ks tg pf key value w))) = Ok k.
Proof.
  intros Hsame Hstore Hk.
  destruct (storeSecret_ok _ _ _ _ _ _ Hstore) as (k' & Hk' & _ & ->).
  by apply getMasterKey_again.
Qed.

(** X3.  Two secrets under different identifiers, neither [__proto__],
    both without unpaired surrogates, stored one after the other with the
    vault behaving the same: both are read back, each with its own
    plaintext. *)
Theorem stored_secrets_are_independent ks tg pf1 pf2 pf3 key1 key2 p1 p2 w :
  key1 ≠ "__proto__" → key2 ≠ "__proto__" → key1 ≠ key2 →
  isWellFormed p1 = true → isWellFormed p2 = true →
  same_vault pf1 pf2 → same_vault pf2 pf3 →
  let r1 := storeSecret ks tg pf1 key1 p1 w in
  let r2 := storeSecret ks tg pf2 key2 p2 (after r1) in
  outcome r1 = Ok tt →
  outcome r2 = Ok tt →
  outcome (getSecret ks tg pf3 key1 (after r2)) = Ok (Some p1)
  ∧ outcome (getSecret ks tg pf3 key2 (after r2)) = Ok (Some p2).
Proof.
  intros Hk1 Hk2 Hne Hp1 Hp2 H12 H23 r1 r2 H1 H2.
  split;
    [|subst r2; rewrite store_then_get by done; by rewrite from_utf8_utf8].
  destruct (storeSecret_ok _ _ _ _ _ _ H1) as (k & Hk & Hargs & Hafter1).
  pose proof (getMasterKey_after_store _ _ _ _ _ _ _ k H12 H1 Hk) as Hk'.
  fold r1 in Hk', Hafter1.
  destruct (storeSecret_ok _ _ _ _ _ _ H2) as (k2 & Hk2' & _ & Hafter2).
  fold r1 in Hk2'. fold r2 in Hafter2.
  assert (k2 = k) as -> by congruence.
  pose proof (getMasterKey_after_store _ _ _ _ _ _ _ k H23 H2 Hk') as Hk3.
  fold r2 in Hk3.
  rewrite getSecret_run.
  assert (secrets (document (after r2)) !! key1
          = Some (sealed_entry ks tg k (map (tape pf1) (seq 32 12)) p1)) as He.
  { rewrite Hafter2.
    cbn [with_document keystore_file document with_secrets secrets].
    rewrite js_set_other by done.
    rewrite (getMasterKey_keeps_secrets pf2 (after r1) k Hk').
    rewrite Hafter1.
    cbn [with_document keystore_file document with_secrets secrets].
    by apply js_set_lookup. }
  rewrite Hafter2 at 1. cbn [with_document keystore_file].
  unfold Js.get. rewrite He.
  replace (with_dir (after r2)) with (after r2)
    by (rewrite Hafter2; symmetry; apply with_dir_after_store).
  rewrite Hk3. rewrite decrypt_sealed_entry by done.
  by rewrite from_utf8_utf8.
Qed.

Lemma stored_secrets_are_independent_witness :
  let r1 := Demo.store Demo.keychain "proj:openai" "sk-test-123" fresh_world in
  let r2 := Demo.store Demo.keychain "proj:stripe" "sk_live_9" (after r1) in
  outcome (Demo.get Demo.keychain "proj:openai" (after r2))
  = Ok (Some "sk-test-123")
  ∧ outcome (Demo.get Demo.keychain "proj:stripe" (after r2))
    = Ok (Some "sk_live_9").
Proof.
  apply (stored_secrets_are_independent Demo.keystream Demo.tag Demo.keychain
           Demo.keychain Demo.keychain "proj:openai" "proj:stripe"
           "sk-test-123" "sk_live_9" fresh_world);
    first [ discriminate | vm_compute; reflexivity | repeat split ].
Defined.

(** ** The master key across calls and processes *)



(** ** [encrypt] and [decrypt] *)

(** X5.  [decrypt] inverts [encrypt] on a plaintext without unpaired
    surrogates: an entry that [encrypt] returned for it decrypts, under the
    same key, to the plaintext. *)
Theorem decrypt_inverts_encrypt ks tg pf plaintext key w e :
  isWellFormed plaintext = true →
  outcome (encrypt ks tg pf plaintext key w) = Ok e →
  decrypt ks tg e key = Ok plaintext.
Proof.
  intros Hwf.
  lazy -[sealed_entry Gcm.valid_args map seq decrypt tape].
  destruct (Gcm.valid_args key (map (tape pf) (seq 32 12))) eqn:Hargs;
    lazy -[sealed_entry map seq decrypt tape]; intros He; [|discriminate He].
  lazymatch type of He with
  | Ok ?x = Ok _ => assert (e = x) as -> by congruence
  end.
  rewrite decrypt_sealed_entry by done. by rewrite from_utf8_utf8.
Qed.

Lemma decrypt_inverts_encrypt_witness :
  decrypt Demo.keystream Demo.tag
    {| iv := "e3eaf1f8ff060d141b222930";
       authTag := "3e3e3e3e3efefefefebebebe6a6a4a4a";
       ciphertext := "938bcd948553540d115253" |}
    (map Demo.dice (seq 0 32))
  = Ok "sk-test-123".
Proof.
  apply (decrypt_inverts_encrypt Demo.keystream Demo.tag Demo.no_keytar
           "sk-test-123" (map Demo.dice (seq 0 32)) fresh_world);
    vm_compute; reflexivity.
Defined.

(** X6.  [encrypt] throws exactly for a key that does not have 32 bytes,
    and then the world is as before. *)
Theorem encrypt_needs_32_bytes ks tg pf plaintext key w :
  (outcome (encrypt ks tg pf plaintext key w) = Throw CryptoError
   ↔ length key ≠ 32)
  ∧ after (encrypt ks tg pf plaintext key w) = w.
Proof.
  assert (Gcm.valid_args key (map (tape pf) (seq 32 12))
          = (length key =? 32)%nat) as Hargs.
  { unfold Gcm.valid_args. rewrite length_map, length_seq.
    cbn [Nat.eqb Nat.leb negb]. by rewrite !andb_true_r. }
  lazy -[sealed_entry Gcm.valid_args map seq length tape].
  rewrite Hargs.
  destruct (Nat.eqb_spec (length key) 32) as [Heq|Hne];
    lazy -[sealed_entry map seq length tape].
  - split; [|done]. split; [discriminate | done].
  - by split.
Qed.

(** ** Errors *)

(** X7.  A key file that does not hold 32 bytes of hex: without keytar,
    [storeSecret] throws the error of [createCipheriv], and keystore.json,
    key file and vault stay as they were. *)
Theorem bad_key_file_rejects_store ks tg pf key value w hex :
  keytar w = false →
  keytar_importable pf = false →
  parses w = true →
  key_file w = Some hex →
  length (Hex.decode hex) ≠ 32 →
  let r := storeSecret ks tg pf key value w in
  outcome r = Throw CryptoError
  ∧ keystore_file (after r) = keystore_file w
  ∧ key_file (after r) = key_file w
  ∧ vault (after r) = vault w.
Proof.
  destruct pf as [imp gr sr tp], w as [kt dir ksf kf v].
  cbn. intros -> -> Hp -> Hlen.
  assert (Gcm.valid_args (Hex.decode hex) (map tp (seq 32 12)) = false)
    as Hargs.
  { unfold Gcm.valid_args.
    destruct (Nat.eqb_spec (length (Hex.decode hex)) 32); [done|reflexivity]. }
  destruct dir, ksf as [[[ver fl sec]|raw]|]; try discriminate Hp;
    each_goal ltac:(
      lazy -[sealed_entry Gcm.valid_args Hex.decode Hex.encode map seq Js.set];
      rewrite Hargs; repeat split; reflexivity).
Qed.

Lemma bad_key_file_rejects_store_witness :
  outcome
    (Demo.store Demo.no_keytar "proj:openai" "sk-test-123"
       {| keytar := false; dir_exists := true; keystore_file := None;
          key_file := Some "0a0b"; vault := None |})
  = Throw CryptoError.
Proof.
  refine (proj1 (bad_key_file_rejects_store Demo.keystream Demo.tag
            Demo.no_keytar "proj:openai" "sk-test-123"
            {| keytar := false; dir_exists := true; keystore_file := None;
               key_file := Some "0a0b"; vault := None |} "0a0b" _ _ _ _ _));
    first [ reflexivity | vm_compute; discriminate ].
Defined.

(** X8.  No failure of decryption leaves [getSecret]: on a keystore.json
    that is absent, is not JSON, or holds a document of the type
    [KeystoreData], whatever its entries, the only errors are the one of
    [JSON.parse] and a rejection of [getPassword]. *)
Theorem getSecret_throws_only ks tg pf key w err :
  outcome (getSecret ks tg pf key w) = Throw err →
  (err = SyntaxError ∧ parses w = false)
  ∨ (err = VaultError ∧ getPassword_rejects pf = true).
Proof.
  rewrite getSecret_run. intros H.
  assert (parses w = false
          ∨ outcome (getMasterKey pf (with_dir w)) = Throw err
            ∧ parses w = true) as [Hp|[Hk Hp]].
  { unfold parses. destruct (keystore_file w) as [[d|raw]|]; [|by left|];
      (destruct (Js.get _ _); [| |discriminate H];
       (destruct (outcome (getMasterKey pf (with_dir w))) as [k|er];
        [discriminate H | right; split; congruence])). }
  - left. split; [|done]. unfold parses in Hp.
    destruct (keystore_file w) as [[d|raw]|]; congruence.
  - destruct (getMasterKey_throws pf (with_dir w) err Hk) as [[_ Hp']|?];
      [|by right].
    destruct w as [kt dir [[d|raw]|] kf v]; cbn in Hp, Hp'; congruence.
Qed.

Lemma getSecret_throws_only_witness :
  (VaultError = SyntaxError ∧ parses Demo.vault_backed = false)
  ∨ (VaultError = VaultError
     ∧ getPassword_rejects Demo.locked_keychain = true).
Proof.
  apply (getSecret_throws_only Demo.keystream Demo.tag Demo.locked_keychain
           "proj:openai" Demo.vault_backed VaultError).
  reflexivity.
Defined.

(** ** Deleting and listing *)

(** X9.  After [deleteSecret] of an identifier that had an entry and is not
    a name of [Object.prototype]: [hasSecret] is false, [getSecret] returns
    [null] without acquiring the key, [listSecretKeys] does not list it, and
    the entries of the other identifiers are as before. *)
Theorem delete_then_absent ks tg pf key w e :
  parses w = true →
  key ∉ Js.object_prototype →
  secrets (document w) !! key = Some e →
  let r := deleteSecret key w in
  outcome r = Ok true
  ∧ outcome (hasSecret key (after r)) = Ok false
  ∧ getSecret ks tg pf key (after r) = MkRun (Ok None) (after r) [EReadDoc]
  ∧ (∃ keys, outcome (listSecretKeys (after r)) = Ok keys ∧ key ∉ keys)
  ∧ ∀ key', key' ≠ key →
      secrets (document (after r)) !! key' = secrets (document w) !! key'.
Proof.
  intros Hp Hkey He r.
  pose proof (deleteSecret_run key w Hp) as Hrun. cbn zeta in Hrun.
  unfold Js.get in Hrun. rewrite He in Hrun.
  destruct Hrun as (Hout & Hafter & _). fold r in Hout, Hafter.
  assert (secrets (document (after r)) = delete key (secrets (document w)))
    as Hsec by (by rewrite Hafter).
  assert (parses (after r) = true) as Hp' by (by rewrite Hafter).
  split; [done|]. split; [|split; [|split]].
  - rewrite (hasSecret_own key (after r) Hkey Hp'). f_equal.
    apply bool_decide_eq_false. rewrite Hsec, lookup_delete_eq.
    by intros [? ?].
  - rewrite (getSecret_undefined ks tg pf key (after r) Hp').
    + by rewrite Hafter.
    + apply js_get_own; [done|]. by rewrite Hsec, lookup_delete_eq.
  - destruct (listSecretKeys_run (after r)) as [Hkeys _].
    rewrite Hp' in Hkeys. eexists. split; [exact Hkeys|].
    destruct (js_keys_once (secrets (document (after r))) key) as [_ Hin].
    rewrite Hin, Hsec, lookup_delete_eq. by intros [? ?].
  - intros key' Hne. by rewrite Hsec, lookup_delete_ne.
Qed.

Lemma delete_then_absent_witness :
  let r := deleteSecret "proj:openai" Demo.one_secret in
  outcome r = Ok true
  ∧ outcome (hasSecret "proj:openai" (after r)) = Ok false
  ∧ Demo.get Demo.no_keytar "proj:openai" (after r)
    = MkRun (Ok None) (after r) [EReadDoc]
  ∧ (∃ keys, outcome (listSecretKeys (after r)) = Ok keys
             ∧ "proj:openai" ∉ keys)
  ∧ ∀ key', key' ≠ "proj:openai" →
      secrets (document (after r)) !! key'
      = secrets (document Demo.one_secret) !! key'.
Proof.
  apply (delete_then_absent Demo.keystream Demo.tag Demo.no_keytar
           "proj:openai" Demo.one_secret
           {| iv := "e3eaf1f8ff060d141b222930";
              authTag := "3e3e3e3e3efefefefebebebe6a6a4a4a";
              ciphertext := "938bcd948553540d115253" |}).
  - reflexivity.
  - vm_compute. intros H. repeat (inversion H as [|? ? ? H']; clear H; rename H' into H).
  - reflexivity.
Defined.

(** X10.  For an identifier that is not a name of [Object.prototype],
    [hasSecret] answers whether [listSecretKeys] lists it. *)
Theorem hasSecret_agrees_with_listSecretKeys key w :
  parses w = true →
  key ∉ Js.object_prototype →
  ∃ keys, outcome (listSecretKeys w) = Ok keys
          ∧ outcome (hasSecret key w) = Ok (bool_decide (key ∈ keys)).
Proof.
  intros Hp Hkey.
  destruct (listSecretKeys_run w) as [Hkeys _]. rewrite Hp in Hkeys.
  eexists. split; [exact Hkeys|].
  rewrite (hasSecret_own key w Hkey Hp). f_equal.
  destruct (js_keys_once (secrets (document w)) key) as [_ Hin].
  apply bool_decide_ext. by rewrite Hin.
Qed.

Lemma hasSecret_agrees_with_listSecretKeys_witness :
  ∃ keys, outcome (listSecretKeys Demo.one_secret) = Ok keys
          ∧ outcome (hasSecret "proj:openai" Demo.one_secret)
            = Ok (bool_decide ("proj:openai" ∈ keys)).
Proof.
  apply (hasSecret_agrees_with_listSecretKeys "proj:openai" Demo.one_secret).
  - reflexivity.
  - vm_compute. intros H. repeat (inversion H as [|? ? ? H']; clear H; rename H' into H).
Defined.

(** ** What the operations leave alone *)

(** X11.  [hasSecret] and [listSecretKeys] only read: for every identifier
    and every world, files, vault and keytar handle are as before, except
    that the directory is created when it is missing, and the only effects
    are that creation and the read of the document. *)
Theorem lookups_only_read key w :
  after (hasSecret key w) = with_dir w
  ∧ after (listSecretKeys w) = with_dir w
  ∧ effects (hasSecret key w) = effects (listSecretKeys w)
  ∧ effects (listSecretKeys w)
    = ((if dir_exists w then [] else [EMkdir])
       ++ match keystore_file w with Some _ => [EReadDoc] | None => [] end)%list.
Proof. by destruct w as [kt [] [[d|raw]|] kf v]. Qed.

(** X12.  [deleteSecret] never touches the master key: for every
    identifier and every world, vault, key file and keytar handle are as
    before, none of its effects is a vault call, a random draw or an access
    to the key file, and the flag and the version of a document that it
    read are as before. *)
Theorem deleteSecret_leaves_master_key key w :
  let r := deleteSecret key w in
  vault (after r) = vault w
  ∧ key_file (after r) = key_file w
  ∧ keytar (after r) = keytar w
  ∧ existsb is_key_effect (effects r) = false
  ∧ masterKeyInKeychain (document (after r)) = masterKeyInKeychain (document w)
  ∧ version (document (after r)) = version (document w).
Proof.
  destruct w as [kt [] [[[ver fl sec]|raw]|] kf v];
    each_goal ltac:(
      lazy -[Js.get Js.remove];
      try destruct (Js.get _ _); repeat split; reflexivity).
Qed.

(** ** Where the master key goes *)

(** X13.  Without keytar (not loaded and not importable) the vault is never
    called; and when there is no key file yet and the document parses, the
    acquisition returns 32 fresh bytes, writes them in hex to the key file,
    and persists the flag [false], which [getKeystoreInfo] then reports. *)
Theorem without_keytar_key_goes_to_file home pf w :
  keytar w = false →
  keytar_importable pf = false →
  let r := getMasterKey pf w in
  existsb is_vault_call (effects r) = false
  ∧ vault (after r) = vault w
  ∧ (parses w = true → key_file w = None →
     outcome r = Ok (map (tape pf) (seq 0 32))
     ∧ key_file (after r) = Some (Hex.encode (map (tape pf) (seq 0 32)))
     ∧ outcome (getKeystoreInfo home (after r))
       = Ok (KEYSTORE_FILE home, false)).
Proof.
  destruct pf as [imp gr sr tp], w as [kt dir ksf kf v].
  intros Hkt Himp; cbn in Hkt, Himp; subst kt imp.
  destruct gr, sr, dir, ksf as [[[ver [] sec]|raw]|], kf as [kf|],
    v as [[|c p]|];
    each_goal ltac:(
      lazy -[Hex.encode Hex.decode map seq KEYSTORE_FILE];
      repeat split; intros; first [ discriminate | reflexivity ]).
Qed.

Lemma without_keytar_key_goes_to_file_witness :
  let r := getMasterKey Demo.no_keytar fresh_world in
  outcome r = Ok (map Demo.dice (seq 0 32))
  ∧ key_file (after r) = Some (Hex.encode (map Demo.dice (seq 0 32)))
  ∧ outcome (getKeystoreInfo Demo.home (after r))
    = Ok (KEYSTORE_FILE Demo.home, false).
Proof.
  refine (proj2 (proj2 (without_keytar_key_goes_to_file Demo.home
                          Demo.no_keytar fresh_world _ _)) _ _);
    reflexivity.
Defined.



(** ** The identifiers of the callers *)

Lemma no_colon_app a b : no_colon (a ++ b) = no_colon a && no_colon b.
Proof.
  induction a as [|c a IH]; simpl; [done|].
  by rewrite IH, andb_assoc.
Qed.

Lemma secretKey_has_colon p s : no_colon (secretKey p s) = false.
Proof.
  unfold secretKey. rewrite no_colon_app. simpl. apply andb_false_r.
Qed.

Lemma secretKey_not_inherited p s : secretKey p s ∉ Js.object_prototype.
Proof.
  intros Hin.
  assert (no_colon (secretKey p s) = true) as Htrue.
  { assert (Forall (λ n, no_colon n = true) Js.object_prototype) as Hall
      by (repeat constructor).
    rewrite Forall_forall in Hall. by apply Hall. }
  by rewrite secretKey_has_colon in Htrue.
Qed.

Lemma secretKey_not_proto p s : secretKey p s ≠ "__proto__".
Proof.
  intros Heq. apply (secretKey_not_inherited p s). rewrite Heq.
  unfold Js.object_prototype. set_solver.
Qed.

(** X15.  For the identifiers that the commands build,
    [`${projectName}:${serviceId}`], the keystore is exact for every project
    name and service id: [hasSecret] is true exactly when the document has
    an entry, and without an entry [getSecret] returns [null] after reading
    the document only, with no master key acquired. *)
Theorem caller_lookups_are_exact ks tg pf projectName serviceId w :
  parses w = true →
  let key := secretKey projectName serviceId in
  outcome (hasSecret key w)
  = Ok (bool_decide (is_Some (secrets (document w) !! key)))
  ∧ (secrets (document w) !! key = None →
     outcome (getSecret ks tg pf key w) = Ok None
     ∧ after (getSecret ks tg pf key w) = with_dir w
     ∧ existsb is_key_effect (effects (getSecret ks tg pf key w)) = false).
Proof.
  intros Hp key. split.
  - apply hasSecret_own; [apply secretKey_not_inherited | done].
  - intros Hnone.
    rewrite (getSecret_undefined ks tg pf key w Hp)
      by (apply js_get_own; [apply secretKey_not_inherited | done]).
    cbn [outcome after effects]. repeat split.
    by destruct (dir_exists w), (keystore_file w).
Qed.

Lemma caller_lookups_are_exact_witness :
  outcome (hasSecret (secretKey "proj" "openai") Demo.one_secret) = Ok true
  ∧ outcome (Demo.get Demo.keychain (secretKey "proj" "stripe")
               Demo.one_secret) = Ok None.
Proof.
  pose proof (caller_lookups_are_exact Demo.keystream Demo.tag Demo.keychain
                "proj" "openai" Demo.one_secret eq_refl) as [Hhas _].
  pose proof (caller_lookups_are_exact Demo.keystream Demo.tag Demo.keychain
                "proj" "stripe" Demo.one_secret eq_refl) as [_ Hget].
  split; [exact Hhas | exact (proj1 (Hget eq_refl))].
Defined.

(** X16.  What a command stored, a command reads back: for every project
    name, service id and API key without unpaired surrogates, after a
    [storeSecret] under [`${projectName}:${serviceId}`] that resolved, with
    the vault behaving as before, [getSecret] returns the API key and
    [hasSecret] is true. *)
Theorem caller_round_trip ks tg pf pf' projectName serviceId apiKey w :
  isWellFormed apiKey = true →
  same_vault pf pf' →
  let key := secretKey projectName serviceId in
  let r := storeSecret ks tg pf key apiKey w in
  outcome r = Ok tt →
  outcome (getSecret ks tg pf' key (after r)) = Ok (Some apiKey)
  ∧ outcome (hasSecret key (after r)) = Ok true.
Proof.
  intros Hwf Hsame key r Hstore.
  pose proof (secretKey_not_proto projectName serviceId) as Hkey.
  split;
    [subst r; rewrite store_then_get by done; by rewrite from_utf8_utf8|].
  destruct (storeSecret_ok _ _ _ _ _ _ Hstore) as (k & Hk & _ & Hafter).
  fold r in Hafter.
  rewrite (hasSecret_own key (after r)
             (secretKey_not_inherited projectName serviceId))
    by (by rewrite Hafter).
  f_equal. apply bool_decide_eq_true. rewrite Hafter.
  cbn [with_document keystore_file document with_secrets secrets].
  rewrite js_set_lookup by done. eauto.
Qed.

Lemma caller_round_trip_witness :
  let key := secretKey "proj" "openai" in
  let r := Demo.store Demo.keychain key "sk-test-123" fresh_world in
  outcome (Demo.get Demo.keychain key (after r)) = Ok (Some "sk-test-123")
  ∧ outcome (hasSecret key (after r)) = Ok true.
Proof.
  apply (caller_round_trip Demo.keystream Demo.tag Demo.keychain
           Demo.keychain "proj" "openai" "sk-test-123" fresh_world).
  - vm_compute. reflexivity.
  - repeat split.
  - vm_compute. reflexivity.
Defined.

Lemma string_app_assoc (a b c : string) : (a ++ b) ++ c = a ++ (b ++ c).
Proof.
  induction a as [|x a IH]; [done|]. exact (f_equal (String x) IH).
Qed.

Lemma secretKey_assoc p s t :
  secretKey (secretKey p s) t = secretKey p (secretKey s t).
Proof. unfold secretKey. by rewrite string_app_assoc. Qed.

(** X17.  A colon in a project name makes two projects share a secret:
    an API key without unpaired surrogates that is stored for service [t]
    of the project named [p:s] is what [getSecret] returns for service
    [s:t] of the project named [p]. *)
Theorem colon_in_project_name_shares_secret ks tg pf pf' p s t apiKey w :
  isWellFormed apiKey = true →
  same_vault pf pf' →
  let r := storeSecret ks tg pf (secretKey (secretKey p s) t) apiKey w in
  outcome r = Ok tt →
  outcome (getSecret ks tg pf' (secretKey p (secretKey s t)) (after r))
  = Ok (Some apiKey).
Proof.
  intros Hwf Hsame r Hstore. subst r.
  rewrite (secretKey_assoc p s t) in Hstore |- *.
  rewrite store_then_get; [|apply secretKey_not_proto | done | done].
  by rewrite from_utf8_utf8.
Qed.

Lemma colon_in_project_name_shares_secret_witness :
  let r := Demo.store Demo.keychain (secretKey (secretKey "acme" "web") "openai")
             "sk-test-123" fresh_world in
  outcome (Demo.get Demo.keychain (secretKey "acme" (secretKey "web" "openai"))
             (after r))
  = Ok (Some "sk-test-123").
Proof.
  apply (colon_in_project_name_shares_secret Demo.keystream Demo.tag
           Demo.keychain Demo.keychain "acme" "web" "openai" "sk-test-123"
           fresh_world).
  - vm_compute. reflexivity.
  - repeat split.
  - vm_compute. reflexivity.
Defined.

(** X18.  Between projects whose names have no colon the identifiers never
    clash: equal identifiers come from the same project name and the same
    service id. *)
Theorem secretKey_injective p s p' s' :
  no_colon p = true → no_colon p' = true →
  secretKey p s = secretKey p' s' →
  p = p' ∧ s = s'.
Proof.
  unfold secretKey. revert p'.
  induction p as [|c p IH]; intros [|c' p'] Hp Hp' Heq.
  - change (String ":" s = String ":" s') in Heq. by injection Heq as ->.
  - change (String ":" s = String c' (p' ++ ":" ++ s')) in Heq.
    injection Heq as <- _. simpl in Hp'. discriminate Hp'.
  - change (String c (p ++ ":" ++ s) = String ":" s') in Heq.
    injection Heq as -> _. simpl in Hp. discriminate Hp.
  - change (String c (p ++ ":" ++ s) = String c' (p' ++ ":" ++ s')) in Heq.
    injection Heq as -> Heq. simpl in Hp, Hp'.
    apply andb_true_iff in Hp as [_ Hp], Hp' as [_ Hp'].
    by destruct (IH p' Hp Hp' Heq) as [-> ->].
Qed.

Lemma secretKey_injective_witness :
  "proj" = "proj" ∧ "openai" = "openai".
Proof.
  apply (secretKey_injective "proj" "openai" "proj" "openai");
    reflexivity.
Defined.

(** ** When keytar arrives later *)





(** ** What [decrypt] takes and what it gives *)

(** X27.  A truncated tag passes: [decrypt] sets no tag length, so
    [setAuthTag] takes the first four bytes of the stored tag for a tag,
    and [getSecret] returns the secret for the entry with this tag. *)
Theorem truncated_tag_still_decrypts :
  secrets (document Demo.one_secret) !! "proj:openai"
  = Some {| iv := "e3eaf1f8ff060d141b222930";
            authTag := "3e3e3e3e3efefefefebebebe6a6a4a4a";
            ciphertext := "938bcd948553540d115253" |}
  ∧ outcome
      (Demo.get Demo.no_keytar "proj:openai"
         (replace_entry "proj:openai"
            {| iv := "e3eaf1f8ff060d141b222930";
               authTag := "3e3e3e3e";
               ciphertext := "938bcd948553540d115253" |}
            Demo.one_secret))
    = Ok (Some "sk-test-123").
Proof. split; vm_compute; reflexivity. Qed.

(** X28.  What [getSecret] returns is the plaintext as UTF-8 has it:
    after a [storeSecret] that resolved, under an identifier other than
    [__proto__], with the vault behaving as before, [getSecret] returns the
    string that the UTF-8 bytes of the plaintext decode to, in which U+FFFD
    stands where the plaintext has an unpaired surrogate. *)
Theorem getSecret_returns_utf8_of_plaintext ks tg pf pf' key value w :
  key ≠ "__proto__" →
  same_vault pf pf' →
  outcome (storeSecret ks tg pf key value w) = Ok tt →
  outcome (getSecret ks tg pf' key (after (storeSecret ks tg pf key value w)))
  = Ok (Some (from_utf8 (utf8 value))).
Proof. apply store_then_get. Qed.

Lemma getSecret_returns_utf8_of_plaintext_witness :
  outcome
    (Demo.get Demo.keychain "proj:openai"
       (after (Demo.store Demo.keychain "proj:openai"
                 (string_of_list_byte [x73; x6b; xed; xa0; x80])
                 fresh_world)))
  = Ok (Some (string_of_list_byte [x73; x6b; xef; xbf; xbd])).
Proof.
  apply (getSecret_returns_utf8_of_plaintext Demo.keystream Demo.tag
           Demo.keychain Demo.keychain "proj:openai"
           (string_of_list_byte [x73; x6b; xed; xa0; x80]) fresh_world).
  - discriminate.
  - repeat split.
  - vm_compute. reflexivity.
Defined.

(** X29.  Hex text of odd length is no ciphertext: when the ciphertext of
    the entry that [storeSecret] wrote is replaced by a text with an odd
    number of characters, [decipher.update] throws inside the [try] and
    [getSecret] returns [null], whatever the text decodes to. *)
Theorem odd_ciphertext_reads_absent ks tg pf pf' key value w k e' :
  same_vault pf pf' →
  outcome (storeSecret ks tg pf key value w) = Ok tt →
  outcome (getMasterKey pf w) = Ok k →
  Nat.odd (js_length (ciphertext e')) = true →
  outcome
    (getSecret ks tg pf' key
       (replace_entry key e' (after (storeSecret ks tg pf key value w))))
  = Ok None.
Proof.
  intros Hsame Hstore Hk Hodd.
  rewrite (getSecret_replaced _ _ _ _ _ _ _ k) by done.
  unfold decrypt. rewrite Hodd.
  destruct (Gcm.valid_args _ _); [|done].
  by destruct (Gcm.valid_tag_length _).
Qed.

Lemma odd_ciphertext_reads_absent_witness :
  outcome
    (Demo.get Demo.no_keytar "proj:openai"
       (replace_entry "proj:openai"
          {| iv := "e3eaf1f8ff060d141b222930";
             authTag := "3e3e3e3e3efefefefebebebe6a6a4a4a";
             ciphertext := "938bcd948553540d1152530" |}
          Demo.one_secret))
  = Ok None.
Proof.
  apply (odd_ciphertext_reads_absent Demo.keystream Demo.tag Demo.no_keytar
           Demo.no_keytar "proj:openai" "sk-test-123" fresh_world
           (map Demo.dice (seq 0 32)));
    first [ repeat split; fail | vm_compute; reflexivity ].
Defined.

(** ** The env file *)

Lemma strip_prefix_app p s r :
  Env.strip_prefix p s = Some r → s = p ++ r.
Proof.
  revert s; induction p as [|a p IH]; intros [|b s] H; simpl in H;
    try discriminate H.
  - by injection H as <-.
  - by injection H as <-.
  - destruct (Ascii.eqb_spec a b) as [->|]; [|discriminate H].
    change (String b s = String b (p ++ r)). f_equal. by apply IH.
Qed.

Lemma strip_white_space_app s r :
  Env.strip_white_space s = Some r →
  ∃ w, w ∈ Env.white_space ∧ Env.strip_prefix w s = Some r.
Proof.
  unfold Env.strip_white_space.
  induction Env.white_space as [|w ws IH]; simpl; [discriminate|].
  destruct (Env.strip_prefix w s) as [r'|] eqn:Hw.
  - intros [= ->]. exists w. split; [left | done].
  - intros H. destruct (IH H) as (w' & Hin & Hw'). exists w'.
    split; [by right | done].
Qed.

Lemma white_space_bytes w :
  w ∈ Env.white_space →
  w ≠ EmptyString ∧ string_forallb ws_byte w = true.
Proof.
  intros Hin.
  assert (Forall (λ w, w ≠ EmptyString ∧ string_forallb ws_byte w = true)
            Env.white_space) as Hall
    by (repeat constructor; done).
  rewrite Forall_forall in Hall. by apply Hall.
Qed.

Lemma string_forallb_app f a b :
  string_forallb f (a ++ b) = string_forallb f a && string_forallb f b.
Proof.
  induction a as [|c a IH]; [done|].
  change (f c && string_forallb f (a ++ b)
          = f c && string_forallb f a && string_forallb f b).
  by rewrite IH, andb_assoc.
Qed.

Lemma all_white_fuel_bytes n s :
  Env.all_white_fuel n s = true → string_forallb ws_byte s = true.
Proof.
  revert s; induction n as [|n IH]; intros [|a s]; simpl; try done.
  destruct (Env.strip_white_space (String a s)) as [r|] eqn:Hr; [|done].
  intros Hfuel.
  destruct (strip_white_space_app _ _ Hr) as (w & Hin & Hw).
  apply strip_prefix_app in Hw.
  destruct (white_space_bytes w Hin) as [_ Hbytes].
  change (string_forallb ws_byte (String a s) = true).
  rewrite Hw, string_forallb_app, Hbytes. by apply IH.
Qed.

Lemma all_white_non_ws s :
  string_forallb ws_byte s = false → Env.all_white s = false.
Proof.
  intros Hs. destruct (Env.all_white s) eqn:Hw; [|done].
  apply all_white_fuel_bytes in Hw. congruence.
Qed.

Lemma strip_white_space_first a s :
  ws_byte a = false → Env.strip_white_space (String a s) = None.
Proof.
  intros Ha. destruct (Env.strip_white_space (String a s)) as [r|] eqn:Hr;
    [|done].
  destruct (strip_white_space_app _ _ Hr) as (w & Hin & Hw).
  apply strip_prefix_app in Hw.
  destruct (white_space_bytes w Hin) as [Hne Hbytes].
  destruct w as [|b w]; [done|].
  change (String a s = String b (w ++ r)) in Hw. injection Hw as -> _.
  simpl in Hbytes. by rewrite Ha in Hbytes.
Qed.

Lemma trimStart_id s :
  Env.strip_white_space s = None → Env.trimStart s = s.
Proof.
  intros H. unfold Env.trimStart.
  destruct (String.length s); simpl; [done|]. by rewrite H.
Qed.

Lemma trimEnd_id s : no_white_tail s = true → Env.trimEnd s = s.
Proof.
  induction s as [|a s IH]; [done|].
  cbn [no_white_tail Env.trimEnd]. intros [Hw Hs]%andb_true_iff.
  apply negb_true_iff in Hw. rewrite Hw. by rewrite IH.
Qed.

(** A string that ends with a byte of no white space has no white tail. *)
Lemma no_white_tail_snoc s c :
  ws_byte c = false → no_white_tail (s ++ String c EmptyString) = true.
Proof.
  intros Hc. induction s as [|a s IH].
  - change (no_white_tail (String c EmptyString) = true).
    cbn [no_white_tail]. rewrite all_white_non_ws; [done|].
    simpl. by rewrite Hc.
  - change (no_white_tail (String a (s ++ String c EmptyString)) = true).
    cbn [no_white_tail]. rewrite IH, andb_true_r.
    apply negb_true_iff, all_white_non_ws.
    change (string_forallb ws_byte (String a s ++ String c EmptyString) = false).
    rewrite string_forallb_app. simpl. rewrite Hc.
    by rewrite andb_false_r.
Qed.

(** Before a tail without white tails, a part that ends with a byte of no
    white space adds none. *)
Lemma no_white_tail_app s c t :
  ws_byte c = false → no_white_tail t = true →
  no_white_tail ((s ++ String c EmptyString) ++ t) = true.
Proof.
  intros Hc Ht. induction s as [|a s IH].
  - change (no_white_tail (String c t) = true).
    cbn [no_white_tail]. rewrite Ht, andb_true_r.
    apply negb_true_iff, all_white_non_ws. simpl. by rewrite Hc.
  - change (no_white_tail (String a ((s ++ String c EmptyString) ++ t)) = true).
    cbn [no_white_tail]. rewrite IH, andb_true_r.
    apply negb_true_iff, all_white_non_ws.
    change (string_forallb ws_byte
              (String a (s ++ String c EmptyString) ++ t) = false).
    rewrite string_forallb_app.
    change (string_forallb ws_byte (String a s ++ String c EmptyString)
            && string_forallb ws_byte t = false).
    rewrite string_forallb_app. simpl. rewrite Hc.
    by rewrite !andb_false_r.
Qed.

Lemma existsb_false {A} (f : A → bool) (l : list A) x :
  existsb f l = false → x ∈ l → f x = false.
Proof.
  induction l as [|y l IH]; simpl; [by intros _ ?%elem_of_nil|].
  intros [Hy Hl]%orb_false_iff [->|Hin]%elem_of_cons; [done | by apply IH].
Qed.

Lemma includes_cons a s w :
  Env.includes (String a s) w = false →
  Env.strip_prefix w (String a s) = None ∧ Env.includes s w = false.
Proof.
  cbn [Env.includes].
  by destruct (Env.strip_prefix w (String a s)).
Qed.

Lemma strip_white_space_none s :
  (∀ w, w ∈ Env.white_space → Env.strip_prefix w s = None) →
  Env.strip_white_space s = None.
Proof.
  intros Hall. destruct (Env.strip_white_space s) as [r|] eqn:Hr; [|done].
  destruct (strip_white_space_app _ _ Hr) as (w & Hin & Hw).
  by rewrite (Hall w Hin) in Hw.
Qed.

(** A string in which no white-space character occurs is its own [trim]. *)
Lemma no_white_space_inside v :
  (∀ w, w ∈ Env.white_space → Env.includes v w = false) →
  Env.strip_white_space v = None ∧ no_white_tail v = true.
Proof.
  induction v as [|a v IH]; intros Hall; [done|].
  assert (Env.strip_white_space (String a v) = None) as Hstrip.
  { apply strip_white_space_none. intros w Hin.
    by destruct (includes_cons a v w (Hall w Hin)). }
  split; [done|].
  cbn [no_white_tail]. apply andb_true_iff. split.
  - unfold Env.all_white. cbn [String.length Env.all_white_fuel].
    by rewrite Hstrip.
  - apply IH. intros w Hin. by destruct (includes_cons a v w (Hall w Hin)).
Qed.

Lemma trim_id v :
  Env.strip_white_space v = None → no_white_tail v = true → Env.trim v = v.
Proof.
  intros Hs Ht. unfold Env.trim. by rewrite trimStart_id, trimEnd_id.
Qed.

Lemma includes_char_first v c :
  Env.includes v (String c EmptyString) = false → Env.startsWith v c = false.
Proof.
  destruct v as [|a v]; [done|]. intros [Hp _]%includes_cons.
  simpl in Hp. simpl. rewrite Ascii.eqb_sym.
  by destruct (Ascii.eqb c a).
Qed.

Lemma escape_quotes_id v : no_dquote v = true → Env.escape_quotes v = v.
Proof.
  induction v as [|c v IH]; [done|].
  cbn [no_dquote string_forallb Env.escape_quotes].
  intros [Hc Hv]%andb_true_iff. apply negb_true_iff in Hc.
  rewrite Hc. f_equal. by apply IH.
Qed.

Lemma endsWith_snoc s c :
  Env.endsWith (s ++ String c EmptyString) c = true.
Proof.
  induction s as [|a s IH].
  - simpl. apply Ascii.eqb_refl.
  - change (Env.endsWith (String a (s ++ String c EmptyString)) c = true).
    destruct (s ++ String c EmptyString) as [|b t] eqn:Hs.
    + by destruct s.
    + exact IH.
Qed.

Lemma drop_last_snoc s c :
  Env.drop_last (s ++ String c EmptyString) = s.
Proof.
  induction s as [|a s IH]; [done|].
  change (Env.drop_last (String a (s ++ String c EmptyString)) = String a s).
  destruct (s ++ String c EmptyString) as [|b t] eqn:Hs.
  - by destruct s.
  - change (String a (Env.drop_last (String b t)) = String a s).
    by rewrite IH.
Qed.

Lemma cut_at_app k q :
  string_forallb (λ c, negb (Ascii.eqb c Env.equals)) k = true →
  Env.cut_at Env.equals (k ++ String Env.equals q) = Some (k, q).
Proof.
  induction k as [|a k IH]; [done|].
  cbn [string_forallb]. intros [Ha Hk]%andb_true_iff.
  apply negb_true_iff in Ha.
  change (Env.cut_at Env.equals (String a (k ++ String Env.equals q))
          = Some (String a k, q)).
  cbn [Env.cut_at]. by rewrite Ha, (IH Hk).
Qed.

Lemma name_char_facts c :
  name_char c = true →
  ws_byte c = false
  ∧ Ascii.eqb c Env.equals = false
  ∧ Ascii.eqb c Env.newline = false.
Proof. by destruct c as [[] [] [] [] [] [] [] []]. Qed.

Lemma string_forallb_impl (f g : ascii → bool) s :
  (∀ c, f c = true → g c = true) →
  string_forallb f s = true → string_forallb g s = true.
Proof.
  intros Hfg. induction s as [|c s IH]; [done|].
  cbn [string_forallb]. intros [Hc Hs]%andb_true_iff.
  by rewrite (Hfg c Hc), IH.
Qed.

Lemma no_white_tail_non_ws s :
  string_forallb (λ c, negb (ws_byte c)) s = true → no_white_tail s = true.
Proof.
  induction s as [|a s IH]; [done|].
  cbn [string_forallb no_white_tail]. intros [Ha Hs]%andb_true_iff.
  apply negb_true_iff in Ha. rewrite (IH Hs), andb_true_r.
  apply negb_true_iff, all_white_non_ws. simpl. by rewrite Ha.
Qed.

Lemma trim_name k : string_forallb name_char k = true → Env.trim k = k.
Proof.
  intros Hk. apply trim_id.
  - destruct k as [|a k]; [done|]. apply strip_white_space_first.
    cbn [string_forallb] in Hk. apply andb_true_iff in Hk as [Ha _].
    by destruct (name_char_facts a Ha).
  - apply no_white_tail_non_ws. revert Hk. apply string_forallb_impl.
    intros c Hc. by destruct (name_char_facts c Hc) as (-> & _).
Qed.

Lemma needsQuotes_false v :
  Env.needsQuotes v = false →
  (∀ w, w ∈ Env.white_space → Env.includes v w = false)
  ∧ Env.startsWith v Env.dquote = false
  ∧ Env.startsWith v Env.apostrophe = false.
Proof.
  unfold Env.needsQuotes. intros H. split; [|split].
  - intros w Hin. apply (existsb_false _ _ w H).
    apply elem_of_app. by left.
  - apply includes_char_first, (existsb_false _ _ _ H).
    apply elem_of_app. right. apply list_elem_of_here.
  - apply includes_char_first, (existsb_false _ _ _ H).
    apply elem_of_app. right. apply list_elem_of_further, list_elem_of_here.
Qed.

(** The value that [parseEnvFile] takes from what [serializeEnvFile] wrote
    for [v]. *)
Lemma unquote_trim_quotedValue v :
  Env.strip_white_space (Env.quotedValue v) = None
  ∧ no_white_tail (Env.quotedValue v) = true
  ∧ Env.unquote (Env.trim (Env.quotedValue v)) = read_back v.
Proof.
  unfold Env.quotedValue, read_back.
  destruct (Env.needsQuotes v) eqn:Hq.
  - assert (no_white_tail
              (String Env.dquote
                 (Env.escape_quotes v ++ String Env.dquote EmptyString))
            = true) as Htail
      by (exact (no_white_tail_snoc (String Env.dquote (Env.escape_quotes v))
                   Env.dquote eq_refl)).
    assert (Env.strip_white_space
              (String Env.dquote
                 (Env.escape_quotes v ++ String Env.dquote EmptyString))
            = None) as Hstrip
      by (by apply strip_white_space_first).
    split; [done|]. split; [done|].
    rewrite trim_id by done.
    unfold Env.unquote.
    cbn [Env.startsWith]. rewrite Ascii.eqb_refl.
    pose proof (endsWith_snoc (String Env.dquote (Env.escape_quotes v))
                  Env.dquote) as Hends.
    change (Env.endsWith
              (String Env.dquote
                 (Env.escape_quotes v ++ String Env.dquote EmptyString))
              Env.dquote = true) in Hends.
    rewrite Hends. cbn [andb orb Env.slice_1_m1]. apply drop_last_snoc.
  - destruct (needsQuotes_false v Hq) as (Hws & Hdq & Hap).
    destruct (no_white_space_inside v Hws) as [Hstrip Htail].
    split; [done|]. split; [done|].
    rewrite trim_id by done. unfold Env.unquote. by rewrite Hdq, Hap.
Qed.

Lemma env_name_facts k :
  env_name k = true →
  string_forallb name_char k = true
  ∧ Env.startsWith k Env.hash = false
  ∧ k ≠ "__proto__".
Proof.
  unfold env_name.
  intros [[Hk Hh]%andb_true_iff Hp]%andb_true_iff.
  apply negb_true_iff in Hh, Hp. apply String.eqb_neq in Hp. done.
Qed.

Lemma parse_env_line k v :
  env_name k = true →
  Env.parse_line (env_line (k, v)) = Some (k, read_back v).
Proof.
  intros (Hk & Hhash & _)%env_name_facts.
  destruct (unquote_trim_quotedValue v) as (Hstrip & Htail & Hvalue).
  unfold env_line; cbn [fst snd]. set (q := Env.quotedValue v) in *.
  assert (Env.trim (k ++ "=" ++ q) = k ++ "=" ++ q) as Htrim.
  { apply trim_id.
    - destruct k as [|a k]; [by apply strip_white_space_first|].
      apply strip_white_space_first.
      cbn [string_forallb] in Hk. apply andb_true_iff in Hk as [Ha _].
      by destruct (name_char_facts a Ha).
    - change (k ++ "=" ++ q) with (k ++ (String Env.equals EmptyString ++ q)).
      rewrite <- string_app_assoc. by apply no_white_tail_app. }
  unfold Env.parse_line. rewrite Htrim.
  assert (Env.cut_at Env.equals (k ++ "=" ++ q) = Some (k, q)) as Hcut.
  { apply cut_at_app. revert Hk. apply string_forallb_impl.
    intros c Hc. by destruct (name_char_facts c Hc) as (_ & -> & _). }
  destruct k as [|a k].
  - change (EmptyString ++ "=" ++ q) with (String Env.equals q) in *.
    cbn [Env.startsWith]. change (Ascii.eqb Env.equals Env.hash) with false.
    cbv iota. rewrite Hcut. by rewrite Hvalue.
  - change (String a k ++ "=" ++ q) with (String a (k ++ "=" ++ q)) in *.
    cbn [Env.startsWith] in Hhash |- *. rewrite Hhash, Hcut.
    by rewrite (trim_name (String a k) Hk), Hvalue.
Qed.

Lemma split_lines_app l rest :
  one_line l = true →
  Env.split_lines (l ++ String Env.newline rest) = l :: Env.split_lines rest.
Proof.
  induction l as [|c l IH]; [done|].
  cbn [one_line string_forallb]. intros [Hc Hl]%andb_true_iff.
  apply negb_true_iff in Hc.
  change (Env.split_lines (String c (l ++ String Env.newline rest))
          = String c l :: Env.split_lines rest).
  cbn [Env.split_lines]. by rewrite Hc, (IH Hl).
Qed.

Lemma split_lines_joined ls :
  Forall (λ l, one_line l = true) ls →
  Env.split_lines (Env.join_lines ls ++ String Env.newline EmptyString)
  = (match ls with [] => [EmptyString] | _ => ls end ++ [EmptyString])%list.
Proof.
  induction 1 as [|l ls Hl Hls IH]; [done|].
  destruct ls as [|l' ls].
  - cbn [Env.join_lines]. by rewrite split_lines_app.
  - change (Env.join_lines (l :: l' :: ls))
      with (l ++ String Env.newline (Env.join_lines (l' :: ls))).
    rewrite string_app_assoc.
    change (String Env.newline (Env.join_lines (l' :: ls))
            ++ String Env.newline EmptyString)
      with (String Env.newline
              (Env.join_lines (l' :: ls) ++ String Env.newline EmptyString)).
    rewrite split_lines_app by done. by rewrite IH.
Qed.

Lemma one_line_app a b :
  one_line (a ++ b) = one_line a && one_line b.
Proof. apply string_forallb_app. Qed.

Lemma escape_quotes_one_line v :
  one_line v = true → one_line (Env.escape_quotes v) = true.
Proof.
  induction v as [|c v IH]; [done|].
  cbn [one_line string_forallb Env.escape_quotes].
  intros [Hc Hv]%andb_true_iff.
  destruct (Ascii.eqb c Env.dquote); cbn [string_forallb];
    rewrite ?Hc; by apply IH.
Qed.

Lemma env_line_one_line k v :
  env_name k = true → one_line v = true → one_line (env_line (k, v)) = true.
Proof.
  intros (Hk & _)%env_name_facts Hv. unfold env_line; cbn [fst snd].
  rewrite !one_line_app. apply andb_true_iff; split; [|apply andb_true_iff; split].
  - revert Hk. apply string_forallb_impl. intros c Hc.
    destruct (name_char_facts c Hc) as (_ & _ & ->). done.
  - done.
  - unfold Env.quotedValue. destruct (Env.needsQuotes v); [|done].
    change (one_line (String Env.dquote EmptyString
                      ++ (Env.escape_quotes v ++ String Env.dquote EmptyString))
            = true).
    rewrite !one_line_app, escape_quotes_one_line by done. done.
Qed.

Lemma assign_insert result key value :
  key ≠ "__proto__" → Env.assign result key value = <[key := value]> result.
Proof.
  intros Hkey. unfold Env.assign. rewrite bool_decide_false by done.
  by destruct (result !! key).
Qed.


Lemma parse_lines_env_lines entries start :
  Forall (λ kv, env_name kv.1 = true) entries →
  parse_lines (map env_line entries) start
  = fold_left (λ m kv, <[kv.1 := read_back kv.2]> m) entries start.
Proof.
  intros Hall. revert start.
  induction Hall as [|[k v] entries Hk _ IH]; intros start; [done|].
  cbn [map fold_left parse_lines] in *. unfold parse_lines in IH.
  rewrite (parse_env_line k v Hk).
  rewrite assign_insert by (by destruct (env_name_facts k Hk) as (_ & _ & ?)).
  apply IH.
Qed.

(** What [parseEnvFile] reads from what [serializeEnvFile] wrote: entry by
    entry, the name with the value as [read_back] gives it. *)
Lemma parse_serialized entries :
  Forall (λ kv, env_name kv.1 = true ∧ one_line kv.2 = true) entries →
  Env.parseEnvFile (Env.serializeEnvFile entries)
  = fold_left (λ m kv, <[kv.1 := read_back kv.2]> m) entries ∅.
Proof.
  intros Hall.
  assert (Forall (λ kv, env_name kv.1 = true) entries) as Hnames
    by (eapply Forall_impl; [exact Hall | by intros ? [? ?]]).
  assert (Forall (λ l, one_line l = true) (map env_line entries)) as Hlines.
  { apply Forall_fmap. eapply Forall_impl; [exact Hall|].
    intros [k v] [Hk Hv]. by apply env_line_one_line. }
  unfold Env.parseEnvFile, Env.serializeEnvFile.
  change (map (λ kv, kv.1 ++ "=" ++ Env.quotedValue kv.2) entries)
    with (map env_line entries).
  rewrite (split_lines_joined _ Hlines).
  change (fold_left ?f ?l ∅) with (parse_lines l ∅) at 1.
  destruct entries as [|kv entries]; [reflexivity|].
  unfold parse_lines. rewrite fold_left_app.
  change (fold_left ?f (map env_line (kv :: entries)) ∅)
    with (parse_lines (map env_line (kv :: entries)) ∅).
  rewrite (parse_lines_env_lines _ _ Hnames). done.
Qed.

Lemma read_back_id v : no_dquote v = true → read_back v = v.
Proof.
  intros Hv. unfold read_back. rewrite escape_quotes_id by done.
  by destruct (Env.needsQuotes v).
Qed.

Lemma fold_insert_list_to_map (entries : list (string * string)) :
  NoDup entries.*1 →
  fold_left (λ m kv, <[kv.1 := kv.2]> m) entries ∅
  = (list_to_map entries : gmap string string).
Proof.
  induction entries as [|[k v] entries IH] using rev_ind; [done|].
  rewrite fmap_app. intros [Hnd [Hk _]]%NoDup_app.
  rewrite fold_left_app. cbn [fold_left fst snd].
  rewrite (IH Hnd), list_to_map_snoc; [done|].
  intros Hin. apply (Hk k Hin). apply list_elem_of_here.
Qed.

(** X19.  The env file gives back what was written: for entries with
    distinct names that are made of printable ASCII other than space and
    the equals sign, do not start with a hash and are not [__proto__], and
    with values that hold no newline and no double quote, [parseEnvFile]
    of [serializeEnvFile] is the object with exactly these entries, whatever
    their order and whether or not a value had to be quoted. *)
Theorem env_file_round_trip entries :
  NoDup entries.*1 →
  Forall (λ kv, env_name kv.1 = true ∧ one_line kv.2 = true
                ∧ no_dquote kv.2 = true) entries →
  Env.parseEnvFile (Env.serializeEnvFile entries) = list_to_map entries.
Proof.
  intros Hnd Hall.
  rewrite parse_serialized
    by (eapply Forall_impl; [exact Hall | by intros ? (? & ? & ?)]).
  rewrite <- (fold_insert_list_to_map entries Hnd).
  clear Hnd. generalize (∅ : gmap string string).
  induction Hall as [|[k v] entries (_ & _ & Hv) _ IH]; intros m; [done|].
  cbn [fold_left fst snd]. rewrite (read_back_id v Hv). apply IH.
Qed.

Lemma env_file_round_trip_witness :
  Env.parseEnvFile
    (Env.serializeEnvFile
       [("OPENAI_API_KEY", "sk-test-123"); ("GREETING", "hello world = hi")])
  = list_to_map
      [("OPENAI_API_KEY", "sk-test-123"); ("GREETING", "hello world = hi")].
Proof.
  apply (env_file_round_trip
           [("OPENAI_API_KEY", "sk-test-123");
            ("GREETING", "hello world = hi")]).
  - apply (bool_decide_unpack _). reflexivity.
  - repeat constructor.
Defined.

Lemma includes_dquote v :
  no_dquote v = false →
  Env.includes v (String Env.dquote EmptyString) = true.
Proof.
  induction v as [|c v IH]; [done|].
  cbn [no_dquote string_forallb].
  destruct (Ascii.eqb c Env.dquote) eqn:Hc; cbn [negb andb]; intros Hv;
    cbn [Env.includes Env.strip_prefix]; rewrite Ascii.eqb_sym, Hc;
    [reflexivity | by apply IH].
Qed.

Lemma escape_quotes_longer v :
  no_dquote v = false →
  (String.length v < String.length (Env.escape_quotes v))%nat.
Proof.
  assert (∀ s, (String.length s ≤ String.length (Env.escape_quotes s))%nat)
    as Hle.
  { induction s as [|c s IH]; [done|]. cbn [Env.escape_quotes].
    destruct (Ascii.eqb c Env.dquote); cbn [String.length]; lia. }
  induction v as [|c v IH]; [done|].
  cbn [no_dquote string_forallb Env.escape_quotes].
  destruct (Ascii.eqb c Env.dquote); cbn [negb andb String.length].
  - intros _. specialize (Hle v). lia.
  - intros Hv. specialize (IH Hv). lia.
Qed.

(** X20.  A value with a double quote is not read back: for a name as
    above and a value on one line in which a double quote occurs,
    [parseEnvFile] of [serializeEnvFile] gives the value with a backslash
    before every double quote, which is not the value that was written. *)
Theorem dquote_is_not_read_back k v :
  env_name k = true → one_line v = true → no_dquote v = false →
  Env.parseEnvFile (Env.serializeEnvFile [(k, v)]) !! k
  = Some (Env.escape_quotes v)
  ∧ Env.escape_quotes v ≠ v.
Proof.
  intros Hk Hv Hq. split.
  - rewrite parse_serialized by (by repeat constructor).
    cbn [fold_left fst snd]. rewrite lookup_insert_eq. f_equal.
    unfold read_back, Env.needsQuotes.
    rewrite existsb_app.
    assert (existsb (Env.includes v)
              [String Env.dquote EmptyString; String Env.apostrophe EmptyString;
               String Env.hash EmptyString; String Env.equals EmptyString]
            = true) as ->
      by (cbn [existsb]; by rewrite (includes_dquote v Hq)).
    by rewrite orb_true_r.
  - intros Heq. pose proof (escape_quotes_longer v Hq) as Hlen.
    rewrite Heq in Hlen. lia.
Qed.

Lemma dquote_is_not_read_back_witness :
  Env.parseEnvFile
    (Env.serializeEnvFile
       [("TOKEN", String "a" (String Env.dquote "b"))]) !! "TOKEN"
  = Some (Env.escape_quotes (String "a" (String Env.dquote "b")))
  ∧ Env.escape_quotes (String "a" (String Env.dquote "b"))
    ≠ String "a" (String Env.dquote "b").
Proof.
  apply (dquote_is_not_read_back "TOKEN" (String "a" (String Env.dquote "b")));
    reflexivity.
Defined.

(** The object that the loop of [updateEnvFile] leaves. *)
Lemma env_is_set_assign m k v k' :
  k ≠ k' →
  env_is_set (if env_is_set m k then m else Env.assign m k v) k'
  = env_is_set m k'.
Proof.
  intros Hne. destruct (env_is_set m k) eqn:Hset; [done|].
  unfold env_is_set, Env.assign.
  destruct (m !! k) eqn:Hk.
  - by rewrite lookup_insert_ne.
  - destruct (bool_decide (k = "__proto__")); [done|].
    by rewrite lookup_insert_ne.
Qed.

Lemma filter_ext_notin (f g : string → bool) (l : list string) :
  (∀ k, k ∈ l → f k = g k) →
  List.filter f l = List.filter g l.
Proof.
  induction l as [|a l IH]; intros H; [done|].
  cbn. rewrite (H a) by left. rewrite IH; [done|].
  intros k Hk. apply H. by right.
Qed.

Lemma update_loop updates : ∀ m upd skp,
  NoDup updates.*1 →
  fold_left update_step updates (m, upd, skp)
  = (fold_left
       (λ m kv, if env_is_set m kv.1 then m else Env.assign m kv.1 kv.2)
       updates m,
     (upd ++ List.filter (λ k, negb (env_is_set m k)) updates.*1)%list,
     (skp ++ List.filter (λ k, env_is_set m k) updates.*1)%list).
Proof.
  induction updates as [|[k v] updates IH]; intros m upd skp Hnd.
  - cbn. by rewrite !app_nil_r.
  - cbn [fmap list_fmap fst] in Hnd. apply NoDup_cons in Hnd as [Hk Hnd].
    cbn [fold_left fmap list_fmap fst snd List.filter].
    unfold update_step at 2.
    assert (Hrest : ∀ k', k' ∈ updates.*1 →
              env_is_set (if env_is_set m k then m else Env.assign m k v) k'
              = env_is_set m k').
    { intros k' Hk'. apply env_is_set_assign. intros ->. contradiction. }
    destruct (env_is_set m k) eqn:Hset; cbn [negb]; rewrite IH by done.
    + by rewrite <- (app_assoc skp [k]).
    + rewrite (filter_ext_notin
                 (λ k', negb (env_is_set (Env.assign m k v) k'))
                 (λ k', negb (env_is_set m k')) updates.*1)
        by (intros k' Hk'; by rewrite Hrest).
      rewrite (filter_ext_notin
                 (λ k', env_is_set (Env.assign m k v) k')
                 (λ k', env_is_set m k') updates.*1)
        by (intros k' Hk'; by rewrite Hrest).
      by rewrite <- (app_assoc upd [k]).
Qed.

Lemma update_loop_lookup updates : ∀ m k,
  NoDup updates.*1 →
  fold_left
    (λ m kv, if env_is_set m kv.1 then m else Env.assign m kv.1 kv.2)
    updates m !! k
  = match m !! k with
    | Some v =>
        if String.eqb v ""
        then match (list_to_map updates : gmap string string) !! k with
             | Some u => Some u
             | None => Some v
             end
        else Some v
    | None =>
        if bool_decide (k ∈ Js.object_prototype) then None
        else (list_to_map updates : gmap string string) !! k
    end.
Proof.
  induction updates as [|[k0 v0] updates IH]; intros m k Hnd.
  - cbn. rewrite lookup_empty.
    destruct (m !! k) as [v|]; [by destruct (String.eqb v "")|].
    by destruct (bool_decide _).
  - cbn [fmap list_fmap fst] in Hnd. apply NoDup_cons in Hnd as [Hk Hnd].
    cbn [fold_left fst snd list_to_map foldr uncurry]. 
    rewrite IH by done. clear IH.
    destruct (decide (k = k0)) as [->|Hne].
    + rewrite !lookup_insert_eq.
      rewrite (not_elem_of_list_to_map_1 (M:=gmap string) updates k0 Hk).
      unfold env_is_set, Env.assign.
      destruct (m !! k0) as [v|] eqn:Hm.
      * destruct (String.eqb v "") eqn:Hv; cbn [negb].
        -- rewrite !lookup_insert_eq. by destruct (String.eqb v0 "").
        -- rewrite Hm. by rewrite Hv.
      * destruct (bool_decide (k0 ∈ Js.object_prototype)) eqn:Hp.
        -- by rewrite Hm.
        -- assert (Hnp : bool_decide (k0 = "__proto__") = false).
           { apply bool_decide_eq_false. intros ->. by vm_compute in Hp. }
           rewrite Hnp. rewrite !lookup_insert_eq. by destruct (String.eqb v0 "").
    + rewrite (lookup_insert_ne _ k0 k) by done.
      assert (Hsame : (if env_is_set m k0 then m else Env.assign m k0 v0) !! k
                      = m !! k).
      { destruct (env_is_set m k0); [done|].
        unfold Env.assign. destruct (m !! k0).
        - by rewrite lookup_insert_ne.
        - destruct (bool_decide _); [done|]. by rewrite lookup_insert_ne. }
      by rewrite Hsame.
Qed.

Lemma update_loop_kept_written updates m :
  NoDup updates.*1 →
  map_Forall kept_entry m →
  Forall (written_kept m) updates →
  map_Forall kept_entry
    (fold_left
       (λ m kv, if env_is_set m kv.1 then m else Env.assign m kv.1 kv.2)
       updates m).
Proof.
  intros Hnd Hm Hupd k v Hk.
  rewrite update_loop_lookup in Hk by done.
  assert (Hin : ∀ u, (list_to_map updates : gmap string string) !! k = Some u
                     → env_is_set m k = false → kept_entry k u).
  { intros u Hu. apply elem_of_list_to_map_2 in Hu.
    exact (proj1 (Forall_forall _ _) Hupd (k, u) Hu). }
  unfold env_is_set in Hin.
  destruct (m !! k) as [v'|] eqn:Hmk.
  - destruct (String.eqb v' "") eqn:Hv'.
    + destruct (list_to_map updates !! k) as [u|] eqn:Hu.
      * injection Hk as <-. by apply Hin.
      * injection Hk as <-. by apply (Hm k v').
    + injection Hk as <-. by apply (Hm k v').
  - destruct (bool_decide (k ∈ Js.object_prototype)); [done|].
    by apply Hin.
Qed.

(** Reading the env file after [updateEnvFile] gives the object that its
    loop has left, when the entries that it writes are given back as they
    are. *)
Lemma updateEnvFile_read_written
    entries projectPath updates envFileName file :
  lists_entries entries →
  NoDup updates.*1 →
  map_Forall kept_entry (readEnvFile file) →
  Forall (written_kept (readEnvFile file)) updates →
  readEnvFile
    (Some (updateEnvFile entries projectPath updates envFileName file).1)
  = fold_left
      (λ m kv, if env_is_set m kv.1 then m else Env.assign m kv.1 kv.2)
      updates (readEnvFile file).
Proof.
  intros Hentries Hnd Hfile Hupd.
  unfold updateEnvFile. rewrite update_loop by done. cbn [fst readEnvFile].
  set (merged := fold_left _ updates _).
  assert (Hkept : map_Forall kept_entry merged)
    by (by apply update_loop_kept_written).
  assert (Hnd' : NoDup (entries merged).*1).
  { rewrite (Hentries merged). apply NoDup_fst_map_to_list. }
  rewrite env_file_round_trip.
  - rewrite (list_to_map_proper (entries merged) (map_to_list merged))
      by (done || apply Hentries).
    apply list_to_map_to_list.
  - done.
  - rewrite (Hentries merged). apply Forall_forall. intros [k v] Hkv.
    apply elem_of_map_to_list in Hkv. exact (Hkept k v Hkv).
Qed.

Lemma updateEnvFile_read entries projectPath updates envFileName file :
  lists_entries entries →
  NoDup updates.*1 →
  map_Forall kept_entry (readEnvFile file) →
  Forall (λ kv, kept_entry kv.1 kv.2) updates →
  readEnvFile
    (Some (updateEnvFile entries projectPath updates envFileName file).1)
  = fold_left
      (λ m kv, if env_is_set m kv.1 then m else Env.assign m kv.1 kv.2)
      updates (readEnvFile file).
Proof.
  intros Hentries Hnd Hfile Hupd. apply updateEnvFile_read_written; try done.
  eapply Forall_impl; [exact Hupd|]. by intros kv Hkv _.
Qed.

(** X21. [updateEnvFile] never overwrites a value: a variable that the env
    file gives a value that is not empty reads the same after the update,
    and an update for it is reported as skipped, not as updated. *)
Theorem update_keeps_existing_values
    entries projectPath updates envFileName file k v :
  lists_entries entries →
  NoDup updates.*1 →
  map_Forall kept_entry (readEnvFile file) →
  Forall (λ kv, kept_entry kv.1 kv.2) updates →
  readEnvFile file !! k = Some v → v ≠ "" →
  let r := updateEnvFile entries projectPath updates envFileName file in
  readEnvFile (Some r.1) !! k = Some v
  ∧ (k ∈ updates.*1 → k ∈ skipped r.2 ∧ k ∉ updated r.2).
Proof.
  intros Hentries Hnd Hfile Hupd Hk Hv r. subst r.
  assert (Hne : String.eqb v "" = false) by (by apply String.eqb_neq).
  split.
  - rewrite updateEnvFile_read by done.
    rewrite update_loop_lookup by done. by rewrite Hk, Hne.
  - intros Hin. unfold updateEnvFile. rewrite update_loop by done.
    cbn [snd skipped updated app].
    assert (Hset : env_is_set (readEnvFile file) k = true)
      by (unfold env_is_set; by rewrite Hk, Hne).
    split.
    + apply list_elem_of_In, filter_In. split; [by apply list_elem_of_In|done].
    + intros Hin'. apply list_elem_of_In, filter_In in Hin' as [_ Hin'].
      by rewrite Hset in Hin'.
Qed.

Lemma update_keeps_existing_values_witness :
  let r := updateEnvFile map_to_list "/p" [("API_KEY", "new_value")] ".env"
             (Some ("API_KEY=existing" ++ String Env.newline "")) in
  readEnvFile (Some r.1) !! "API_KEY" = Some "existing"
  ∧ ("API_KEY" ∈ [("API_KEY", "new_value")].*1
     → "API_KEY" ∈ skipped r.2 ∧ "API_KEY" ∉ updated r.2).
Proof.
  apply (update_keeps_existing_values map_to_list "/p"
           [("API_KEY", "new_value")] ".env"
           (Some ("API_KEY=existing" ++ String Env.newline ""))
           "API_KEY" "existing").
  - intros m. reflexivity.
  - apply (bool_decide_unpack _). vm_compute. reflexivity.
  - apply (bool_decide_unpack _). vm_compute. reflexivity.
  - repeat constructor.
  - vm_compute. reflexivity.
  - discriminate.
Defined.

(** X22. [updateEnvFile] fills what is missing.  The entries of the env
    file and the updates are entries that the file gives back as they are
    (names of printable ASCII other than the space and the equals sign, not
    starting a comment, not [__proto__]; values on one line, without a
    double quote), the names of the updates are distinct, and
    [Object.entries] lists every own property once.  Then an update for a
    variable that the env file does not have, or has with an empty value,
    under a name that is not one of [Object.prototype] and with a value
    without unpaired surrogates, is read back from the file afterwards and
    reported as updated. *)
Theorem update_fills_missing_values
    entries projectPath updates envFileName file k u :
  lists_entries entries →
  NoDup updates.*1 →
  map_Forall kept_entry (readEnvFile file) →
  Forall (λ kv, kept_entry kv.1 kv.2) updates →
  (k, u) ∈ updates →
  k ∉ Js.object_prototype →
  isWellFormed u = true →
  readEnvFile file !! k = None ∨ readEnvFile file !! k = Some "" →
  let r := updateEnvFile entries projectPath updates envFileName file in
  readEnvFile (Some r.1) !! k = Some u
  ∧ k ∈ updated r.2 ∧ k ∉ skipped r.2.
Proof.
  intros Hentries Hnd Hfile Hupd Hin Hproto _ Hk r. subst r.
  assert (Hu : (list_to_map updates : gmap string string) !! k = Some u)
    by (by apply elem_of_list_to_map_1).
  assert (Hp : bool_decide (k ∈ Js.object_prototype) = false)
    by (by apply bool_decide_eq_false).
  assert (Hset : env_is_set (readEnvFile file) k = false).
  { unfold env_is_set. destruct Hk as [-> | ->]; [done|reflexivity]. }
  split.
  - rewrite updateEnvFile_read by done.
    rewrite update_loop_lookup by done.
    destruct Hk as [-> | ->]; [by rewrite Hp|]. cbn. by rewrite Hu.
  - unfold updateEnvFile. rewrite update_loop by done.
    cbn [snd skipped updated app].
    assert (Hkey : k ∈ updates.*1).
    { apply list_elem_of_fmap. by exists (k, u). }
    split.
    + apply list_elem_of_In, filter_In. split; [by apply list_elem_of_In|].
      by rewrite Hset.
    + intros Hin'. apply list_elem_of_In, filter_In in Hin' as [_ Hin'].
      by rewrite Hset in Hin'.
Qed.

Lemma update_fills_missing_values_witness :
  let r := updateEnvFile map_to_list "/p"
             [("OPENAI_API_KEY", "sk-test-123")] ".env"
             (Some ("OPENAI_API_KEY=" ++ String Env.newline "")) in
  readEnvFile (Some r.1) !! "OPENAI_API_KEY" = Some "sk-test-123"
  ∧ "OPENAI_API_KEY" ∈ updated r.2 ∧ "OPENAI_API_KEY" ∉ skipped r.2.
Proof.
  apply (update_fills_missing_values map_to_list "/p"
           [("OPENAI_API_KEY", "sk-test-123")] ".env"
           (Some ("OPENAI_API_KEY=" ++ String Env.newline ""))
           "OPENAI_API_KEY" "sk-test-123").
  - intros m. reflexivity.
  - apply (bool_decide_unpack _). vm_compute. reflexivity.
  - apply (bool_decide_unpack _). vm_compute. reflexivity.
  - repeat constructor.
  - apply (bool_decide_unpack _). vm_compute. reflexivity.
  - apply (bool_decide_unpack _). vm_compute. reflexivity.
  - vm_compute. reflexivity.
  - right. vm_compute. reflexivity.
Defined.

(** X23. [updateEnvFile] touches only the variables of the update.  The
    entries of the env file and the updates are entries that the file gives
    back as they are (names of printable ASCII other than the space and the
    equals sign, not starting a comment, not [__proto__]; values on one
    line, without a double quote), the names of the updates are distinct,
    and [Object.entries] lists every own property once.  Then a variable
    that is not among the updates reads from the rewritten file as it did
    before. *)
Theorem update_leaves_other_variables
    entries projectPath updates envFileName file k :
  lists_entries entries →
  NoDup updates.*1 →
  map_Forall kept_entry (readEnvFile file) →
  Forall (λ kv, kept_entry kv.1 kv.2) updates →
  k ∉ updates.*1 →
  readEnvFile
    (Some (updateEnvFile entries projectPath updates envFileName file).1) !! k
  = readEnvFile file !! k.
Proof.
  intros Hentries Hnd Hfile Hupd Hk.
  rewrite updateEnvFile_read by done.
  rewrite update_loop_lookup by done.
  rewrite (not_elem_of_list_to_map_1 (M:=gmap string) updates k Hk).
  destruct (readEnvFile file !! k) as [v|]; [by destruct (String.eqb v "")|].
  by destruct (bool_decide _).
Qed.

Lemma update_leaves_other_variables_witness :
  readEnvFile
    (Some (updateEnvFile map_to_list "/p" [("NEW_KEY", "new_value")] ".env"
             (Some ("EXISTING=value" ++ String Env.newline ""))).1)
    !! "EXISTING"
  = readEnvFile (Some ("EXISTING=value" ++ String Env.newline ""))
    !! "EXISTING".
Proof.
  apply (update_leaves_other_variables map_to_list "/p"
           [("NEW_KEY", "new_value")] ".env"
           (Some ("EXISTING=value" ++ String Env.newline "")) "EXISTING").
  - intros m. reflexivity.
  - apply (bool_decide_unpack _). vm_compute. reflexivity.
  - apply (bool_decide_unpack _). vm_compute. reflexivity.
  - repeat constructor.
  - apply (bool_decide_unpack _). vm_compute. reflexivity.
Defined.

(** X24. A variable named like a member of [Object.prototype],
    [__proto__] among them, is not written when the env file does not have
    it: [updateEnvFile] finds the name in the object all the same, reports
    the update as skipped and not as updated, and the rewritten file still
    does not have the variable.  The entries of the env file, and the
    updates that are written (those for variables that the file does not
    have set), are entries that the file gives back as they are (names of
    printable ASCII other than the space and the equals sign, not starting a
    comment, not [__proto__]; values on one line, without a double quote),
    the names of the updates are distinct, and [Object.entries] lists every
    own property once. *)
Theorem update_skips_prototype_names
    entries projectPath updates envFileName file k u :
  lists_entries entries →
  NoDup updates.*1 →
  map_Forall kept_entry (readEnvFile file) →
  Forall (written_kept (readEnvFile file)) updates →
  (k, u) ∈ updates →
  k ∈ Js.object_prototype →
  readEnvFile file !! k = None →
  let r := updateEnvFile entries projectPath updates envFileName file in
  readEnvFile (Some r.1) !! k = None
  ∧ k ∈ skipped r.2 ∧ k ∉ updated r.2.
Proof.
  intros Hentries Hnd Hfile Hupd Hin Hproto Hk r. subst r.
  assert (Hp : bool_decide (k ∈ Js.object_prototype) = true)
    by (by apply bool_decide_eq_true).
  assert (Hset : env_is_set (readEnvFile file) k = true)
    by (unfold env_is_set; by rewrite Hk).
  split.
  - rewrite updateEnvFile_read_written by done.
    rewrite update_loop_lookup by done. by rewrite Hk, Hp.
  - unfold updateEnvFile. rewrite update_loop by done.
    cbn [snd skipped updated app].
    assert (Hkey : k ∈ updates.*1).
    { apply list_elem_of_fmap. by exists (k, u). }
    split.
    + apply list_elem_of_In, filter_In. split; [by apply list_elem_of_In|done].
    + intros Hin'. apply list_elem_of_In, filter_In in Hin' as [_ Hin'].
      by rewrite Hset in Hin'.
Qed.

Lemma update_skips_prototype_names_witness :
  let r := updateEnvFile map_to_list "/p"
             [("__proto__", "sk-test-123"); ("OPENAI_API_KEY", "sk-test-123")]
             ".env" None in
  readEnvFile (Some r.1) !! "__proto__" = None
  ∧ "__proto__" ∈ skipped r.2 ∧ "__proto__" ∉ updated r.2.
Proof.
  apply (update_skips_prototype_names map_to_list "/p"
           [("__proto__", "sk-test-123"); ("OPENAI_API_KEY", "sk-test-123")]
           ".env" None "__proto__" "sk-test-123").
  - intros m. reflexivity.
  - apply (bool_decide_unpack _). vm_compute. reflexivity.
  - apply (bool_decide_unpack _). vm_compute. reflexivity.
  - apply (bool_decide_unpack _). vm_compute. reflexivity.
  - apply (bool_decide_unpack _). vm_compute. reflexivity.
  - apply (bool_decide_unpack _). vm_compute. reflexivity.
  - vm_compute. reflexivity.
Defined.

Lemma split_lines_cons s : ∃ l ls, Env.split_lines s = l :: ls.
Proof.
  destruct s as [|c s]; [by eexists _, _|].
  cbn [Env.split_lines]. destruct (Ascii.eqb c Env.newline); [by eexists _, _|].
  destruct (Env.split_lines s); by eexists _, _.
Qed.

Lemma split_lines_newline a b :
  Env.split_lines (a ++ String Env.newline b)
  = (Env.split_lines a ++ Env.split_lines b)%list.
Proof.
  induction a as [|c a IH].
  - change (Env.split_lines (String Env.newline b)
            = EmptyString :: Env.split_lines b).
    reflexivity.
  - change (Env.split_lines (String c (a ++ String Env.newline b))
            = (Env.split_lines (String c a) ++ Env.split_lines b)%list).
    cbn [Env.split_lines]. rewrite IH.
    destruct (Ascii.eqb c Env.newline); [done|].
    by destruct (split_lines_cons a) as (l & ls & ->).
Qed.

(** X25. [ensureGitignoreHasEnv] adds the env file once: after a call, a
    second call for the same name finds it, returns false and leaves the
    ignore file as it is.  The name is on one line and has no white space
    around it. *)
Theorem gitignore_entry_added_once file envFileName :
  one_line envFileName = true →
  Env.trim envFileName = envFileName →
  ensureGitignoreHasEnv (ensureGitignoreHasEnv file envFileName).2 envFileName
  = (false, (ensureGitignoreHasEnv file envFileName).2).
Proof.
  intros Hline Htrim.
  unfold ensureGitignoreHasEnv at 2 3.
  set (content := match file with Some c => c | None => "" end).
  destruct (bool_decide (envFileName ∈ map Env.trim (Env.split_lines content))
            || bool_decide ("*.env" ∈ map Env.trim (Env.split_lines content))
            || bool_decide (".env*" ∈ map Env.trim (Env.split_lines content)))
    eqn:Hfound; cbn [snd].
  - unfold ensureGitignoreHasEnv. fold content. by rewrite Hfound.
  - unfold ensureGitignoreHasEnv.
    rewrite split_lines_newline.
    change (String Env.newline ?s) with (EmptyString ++ String Env.newline s).
    rewrite split_lines_newline.
    rewrite (split_lines_app "# Environment variables") by reflexivity.
    rewrite (split_lines_app envFileName) by done.
    rewrite !map_app. cbn [map app].
    assert (Hin : envFileName
                  ∈ (map Env.trim (Env.split_lines (Env.trimEnd content))
                     ++ map Env.trim (Env.split_lines "")
                     ++ Env.trim "# Environment variables"
                        :: Env.trim envFileName
                        :: map Env.trim (Env.split_lines ""))%list).
    { rewrite Htrim. apply elem_of_app. right. apply elem_of_app. right.
      right. left. }
    by rewrite (bool_decide_eq_true_2 _ Hin).
Qed.

Lemma gitignore_entry_added_once_witness :
  ensureGitignoreHasEnv (ensureGitignoreHasEnv None ".env").2 ".env"
  = (false, (ensureGitignoreHasEnv None ".env").2).
Proof.
  apply (gitignore_entry_added_once None ".env");
    vm_compute; reflexivity.
Defined.
